(** * The jsonnet command-line driver (jsonnet.cpp), embedded and verified

    The file follows the source top to bottom: the C library calls the driver
    relies on ([strtol], [c_str]), the argument normalizer [simplify_args],
    the integer validator [strtol_check], the option loop of [main], the
    filename checks, the parse / analyse / execute pipeline and the bounded
    stack-trace printer of the [RuntimeError] handler.

    Integers are mathematical integers ([Z]) with the conversions between
    [long] and [unsigned] written out.  The widths are those of the LP64 data
    model (64-bit [long], 32-bit [unsigned]) of the x86-64 Unix systems the
    program is built for. *)

From Stdlib Require Import ZArith String Ascii List Bool Lia DecimalString
  DecimalPos.
Import ListNotations.

Local Open Scope string_scope.
Local Open Scope list_scope.
Local Open Scope Z_scope.

(** ** Characters and strings *)

Definition NUL : ascii := ascii_of_nat 0.
Definition nl : string := String (ascii_of_nat 10) EmptyString.
Definition tab : string := String (ascii_of_nat 9) EmptyString.
Definition dquote : string := String (ascii_of_nat 34) EmptyString.

(** [s.c_str()] seen as a C string: the characters of [s] up to the first
    NUL.  An argument that came from [argv] holds no NUL and is its own
    [c_str]. *)
Fixpoint c_str (s : string) : string :=
  match s with
  | EmptyString => EmptyString
  | String c s' => if Ascii.eqb c NUL then EmptyString else String c (c_str s')
  end.

(** [*p] for a pointer [p] into a C string, given as the characters from [p]
    on: the terminating NUL when nothing is left. *)
Definition deref (p : string) : ascii :=
  match p with
  | EmptyString => NUL
  | String c _ => c
  end.

(** [s[i]] of a [std::string]; [s[s.length()]] is the NUL. *)
Definition char_at (s : string) (i : nat) : ascii :=
  match String.get i s with
  | Some c => c
  | None => NUL
  end.

Definition string_of_Z (z : Z) : string := NilZero.string_of_int (Z.to_int z).

(** ** The C library: [strtol] in base 10, "C" locale, LP64 *)

Module CLib.

Definition LONG_MAX : Z := 2 ^ 63 - 1.
Definition LONG_MIN : Z := - 2 ^ 63.
Definition UINT_MODULUS : Z := 2 ^ 32.

(** Conversion of a [long] to [unsigned]: reduction modulo 2^32. *)
Definition to_unsigned (z : Z) : Z := z mod UINT_MODULUS.

(** Space, and the control characters tab, newline, vertical tab, form
    feed, carriage return. *)
Definition isspace (c : ascii) : bool :=
  let n := nat_of_ascii c in
  (n =? 32)%nat || ((9 <=? n)%nat && (n <=? 13)%nat).

Definition isdigit (c : ascii) : bool :=
  let n := nat_of_ascii c in
  (48 <=? n)%nat && (n <=? 57)%nat.

Definition digit_value (c : ascii) : Z := Z.of_nat (nat_of_ascii c) - 48.

Fixpoint skip_space (s : string) : string :=
  match s with
  | String c s' => if isspace c then skip_space s' else s
  | EmptyString => s
  end.

(** The longest run of decimal digits at the head of [s]: its value on top
    of [acc], and what follows it. *)
Fixpoint digits (acc : Z) (s : string) : Z * string :=
  match s with
  | String c s' =>
      if isdigit c then digits (10 * acc + digit_value c) s' else (acc, s)
  | EmptyString => (acc, s)
  end.

Definition clamp_long (v : Z) : Z :=
  if v <? LONG_MIN then LONG_MIN
  else if LONG_MAX <? v then LONG_MAX
  else v.

(** [strtol(nptr, &ep, 10)]: the value and [ep] (as the characters left).
    White space is skipped, one sign is taken, then the digits; without a
    digit nothing is converted, the value is 0 and [ep] is [nptr].  A value
    out of range is replaced by [LONG_MAX] or [LONG_MIN]. *)
Definition strtol (nptr : string) : Z * string :=
  let s := skip_space nptr in
  let '(neg, body) :=
    match s with
    | String c s' =>
        if Ascii.eqb c "-" then (true, s')
        else if Ascii.eqb c "+" then (false, s')
        else (false, s)
    | EmptyString => (false, s)
    end in
  if isdigit (deref body) then
    let '(mag, ep) := digits 0 body in
    (clamp_long (if neg then - mag else mag), ep)
  else (0, nptr).

End CLib.


(** ** The argument normalizer: [simplify_args] (lines 36-59) *)

(** The test of line 50: [arg.length() > 2 && arg[0] == '-' && arg[1] != '-']. *)
Definition is_cluster (arg : string) : bool :=
  (2 <? String.length arg)%nat
  && Ascii.eqb (char_at arg 0) "-"
  && negb (Ascii.eqb (char_at arg 1) "-").

(** The loop of lines 51-53: for [j] from 1 to [arg.length() - 1], the token
    ["-" + arg.substr(j, 1)]. *)
Definition expand_cluster (arg : string) : list string :=
  map (fun j => ("-" ++ String.substring j 1 arg)%string)
      (seq 1 (String.length arg - 1)).

(** The loop of lines 40-57 over the arguments still to be read. *)
Fixpoint simplify_loop (raw : list string) : list string :=
  match raw with
  | [] => []
  | arg :: rest =>
      if String.eqb arg "--" then arg :: rest
      else if is_cluster arg then expand_cluster arg ++ simplify_loop rest
      else arg :: simplify_loop rest
  end.

(** [argv[0]] is the program's name; the loop starts at [argv[1]]. *)
Definition simplify_args (argv : list string) : list string :=
  simplify_loop (tl argv).

(** One token per character of [chars], each with a dash put in front. *)
Definition dash_each (chars : string) : list string :=
  map (fun c => String "-" (String c EmptyString)) (list_ascii_of_string chars).

(** The rule of the specification for one token, in its words: a token of
    length > 2 that begins with a single dash (not a double dash) is split
    into one token per character after the dash, each with a dash put in
    front; every other token stays as it is. *)
Definition normalize_token_spec (t : string) : list string :=
  match t with
  | String a (String b (String c rest)) =>
      if Ascii.eqb a "-" && negb (Ascii.eqb b "-")
      then dash_each (String b (String c rest))
      else [t]
  | _ => [t]
  end.

(** ** What the driver is linked against *)

(** A frame of a stack trace and the [RuntimeError] that carries the trace
    (vm.h); [L] is the type of source locations. *)
Record frame (L : Type) : Type := mk_frame {
  location : L;
  name : string
}.
Arguments mk_frame {L} _ _.
Arguments location {L} _.
Arguments name {L} _.

Record RuntimeError (L : Type) : Type := mk_RuntimeError {
  msg : string;
  stackTrace : list (frame L)
}.
Arguments mk_RuntimeError {L} _ _.
Arguments msg {L} _.
Arguments stackTrace {L} _.

(** The declarations of lexer.h, parser.h, static_analysis.h and vm.h, the
    floating-point part of the C library, and the files and standard input of
    the run.  The driver is verified for every choice of these.

    [released] stands for line 126: [next_arg] returns a [std::string] by
    value, and [arg] is the [c_str()] of that temporary, which is destroyed
    at the end of the declaration.  [strtod] and the tests of lines 128-135
    read the buffer after that; [released tok] is what they find where the
    characters of [tok] were. *)
Class World : Type := {
  double : Type;
  double_two : double;
  double_lt_zero : double -> bool;
  strtod : string -> double * string;
  released : string -> string;
  AST : Type;
  StaticError : Type;
  LocationRange : Type;
  show_StaticError : StaticError -> string;
  show_LocationRange : LocationRange -> string;
  jsonnet_parse : string -> string -> StaticError + AST;
  jsonnet_unparse_jsonnet : AST -> string;
  jsonnet_static_analysis : AST -> StaticError + AST;
  jsonnet_vm_execute :
    AST -> Z -> Z -> double -> RuntimeError LocationRange + string;
  stdin_contents : string;
  read_file : string -> option string
}.

(** ** The process: what it writes and calls, and how it ends *)

(** What a run can be seen to do, in order.  One statement that writes to a
    stream is one event with the whole text of the statement; the body of
    [usage] counts as one statement. *)
Inductive event {W : World} : Type :=
| Stdout (text : string)
| Stderr (text : string)
| Perror (text : string)
| Read_stdin
| Read_file (path : string)
| Call_parse (filename input : string)
| Call_unparse (expr : AST)
| Call_static_analysis (expr : AST)
| Call_vm_execute (expr : AST) (max_stack gc_min_objects : Z)
                  (gc_growth_trigger : double).

Definition EXIT_SUCCESS : Z := 0.
Definition EXIT_FAILURE : Z := 1.

(** A step of the program either goes on with a value or ends the process
    ([exit], or [return] from [main]) with a status. *)
Inductive outcome (A : Type) : Type :=
| Returns (a : A)
| Exits (status : Z).
Arguments Returns {A} _.
Arguments Exits {A} _.

Definition proc {W : World} (A : Type) : Type := (list event * outcome A)%type.

Definition ret {W : World} {A : Type} (a : A) : proc A := ([], Returns a).

Definition bind {W : World} {A B : Type} (m : proc A) (f : A -> proc B)
  : proc B :=
  match m with
  | (evs, Returns a) => let '(evs', r) := f a in (evs ++ evs', r)
  | (evs, Exits status) => (evs, Exits status)
  end.

Definition emit {W : World} (e : event) : proc unit := ([e], Returns tt).

Definition exit {W : World} {A : Type} (status : Z) : proc A :=
  ([], Exits status).

Notation "x <- m ;; k" := (bind m (fun x => k))
  (at level 61, m at next level, right associativity).
Notation "m ;; k" := (bind m (fun _ => k))
  (at level 61, right associativity).

Definition cout {W : World} (text : string) : proc unit := emit (Stdout text).
Definition cerr {W : World} (text : string) : proc unit := emit (Stderr text).

(** ** [next_arg], [usage] and [strtol_check] (lines 26-34, 61-90) *)

(** [next_arg(i, args)] with [rest] the tokens after [args[i]]: the process
    ends when there is none, otherwise the caller goes on ([k]) with the next
    token and the tokens after it. *)
Definition next_arg {W : World} {A : Type} (rest : list string)
    (k : string -> list string -> proc A) : proc A :=
  match rest with
  | [] =>
      cerr ("Expected another commandline argument." ++ nl)%string ;;
      exit EXIT_FAILURE
  | a :: rest' => k a rest'
  end.

Definition usage_text : string :=
  ("Usage:" ++ nl ++
   "jsonnet {<option>} [<filename>]" ++ nl ++
   "where <filename> defaults to - (stdin)" ++ nl ++
   "and <option> can be:" ++ nl ++
   "    -h / --help            This message" ++ nl ++
   "    -e / --exec            Treat filename as code (requires explicit filename)" ++ nl ++
   "    -s / --max-stack <n>   Number of allowed stack frames" ++ nl ++
   "    --gc-min-objects       Do not run garbage collector until this many" ++ nl ++
   "    --gc-growth-trigger    Run garbage collector after this amount of object growth" ++ nl ++
   "    --debug-ast            Unparse the parsed AST without executing it" ++ nl ++ nl ++
   "Multichar options are expanded e.g. -abc becomes -a -b -c." ++ nl ++
   "The -- option suppresses option processing.  Note that since jsonnet programs can" ++ nl ++
   "begin with -, it is advised to use -- with -e if the program is unknown." ++
   nl)%string.

(** [usage(o)] for the stream [o], [Stdout] or [Stderr]. *)
Definition usage {W : World} (o : string -> event) : proc unit :=
  emit (o usage_text).

Definition strtol_check {W : World} (str : string) : proc Z :=
  let arg := c_str str in
  let '(r, ep) := CLib.strtol arg in
  if negb (Ascii.eqb (deref ep) NUL) || Ascii.eqb (deref arg) NUL then
    cerr ("ERROR: Invalid integer " ++ dquote ++ arg ++ dquote ++ nl ++ nl)%string ;;
    usage Stderr ;;
    exit EXIT_FAILURE
  else ret r.

(** ** [main] (lines 92-226) *)

(** The local variables of [main] that the option loop works on. *)
Record vars {W : World} : Type := mk_vars {
  filename : string;
  gc_growth_trigger : double;
  max_stack : Z;
  gc_min_objects : Z;
  filename_is_code : bool;
  debug_ast : bool;
  remaining_args : list string
}.

(** Lines 94-99. *)
Definition initial_vars {W : World} : vars :=
  {| filename := "-";
     gc_growth_trigger := double_two;
     max_stack := 500;
     gc_min_objects := 1000;
     filename_is_code := false;
     debug_ast := false;
     remaining_args := [] |}.

Definition set_filename {W : World} (v : string) (st : vars) : vars :=
  {| filename := v;
     gc_growth_trigger := gc_growth_trigger st;
     max_stack := max_stack st;
     gc_min_objects := gc_min_objects st;
     filename_is_code := filename_is_code st;
     debug_ast := debug_ast st;
     remaining_args := remaining_args st |}.

Definition set_gc_growth_trigger {W : World} (v : double) (st : vars) : vars :=
  {| filename := filename st;
     gc_growth_trigger := v;
     max_stack := max_stack st;
     gc_min_objects := gc_min_objects st;
     filename_is_code := filename_is_code st;
     debug_ast := debug_ast st;
     remaining_args := remaining_args st |}.

Definition set_max_stack {W : World} (v : Z) (st : vars) : vars :=
  {| filename := filename st;
     gc_growth_trigger := gc_growth_trigger st;
     max_stack := v;
     gc_min_objects := gc_min_objects st;
     filename_is_code := filename_is_code st;
     debug_ast := debug_ast st;
     remaining_args := remaining_args st |}.

Definition set_gc_min_objects {W : World} (v : Z) (st : vars) : vars :=
  {| filename := filename st;
     gc_growth_trigger := gc_growth_trigger st;
     max_stack := max_stack st;
     gc_min_objects := v;
     filename_is_code := filename_is_code st;
     debug_ast := debug_ast st;
     remaining_args := remaining_args st |}.

Definition set_filename_is_code {W : World} (v : bool) (st : vars) : vars :=
  {| filename := filename st;
     gc_growth_trigger := gc_growth_trigger st;
     max_stack := max_stack st;
     gc_min_objects := gc_min_objects st;
     filename_is_code := v;
     debug_ast := debug_ast st;
     remaining_args := remaining_args st |}.

Definition set_debug_ast {W : World} (v : bool) (st : vars) : vars :=
  {| filename := filename st;
     gc_growth_trigger := gc_growth_trigger st;
     max_stack := max_stack st;
     gc_min_objects := gc_min_objects st;
     filename_is_code := filename_is_code st;
     debug_ast := v;
     remaining_args := remaining_args st |}.

(** [remaining_args.push_back(...)] for each token of [more], in order. *)
Definition push_remaining {W : World} (more : list string) (st : vars) : vars :=
  {| filename := filename st;
     gc_growth_trigger := gc_growth_trigger st;
     max_stack := max_stack st;
     gc_min_objects := gc_min_objects st;
     filename_is_code := filename_is_code st;
     debug_ast := debug_ast st;
     remaining_args := remaining_args st ++ more |}.

(** The option loop, lines 104-151, from the token under the cursor on.

    In the [--max-stack] branch [l] is the [long] of [strtol_check] and the
    assignment [max_stack = l] converts it to [unsigned].  In the
    [--gc-min-objects] branch the value of [strtol_check] is first assigned
    to the [unsigned gc_min_objects], and [l] is initialised from that
    [unsigned] (line 118): the test and the assignment of lines 119-124 see
    the converted value. *)
Fixpoint parse_args {W : World} (st : vars) (args : list string)
  : proc vars :=
  match args with
  | [] => ret st
  | arg :: rest =>
      if String.eqb arg "-h" || String.eqb arg "--help" then
        usage Stdout ;;
        exit EXIT_SUCCESS
      else if String.eqb arg "-s" || String.eqb arg "--max-stack" then
        next_arg rest (fun a rest' =>
          l <- strtol_check a ;;
          if l <? 1 then
            cerr ("ERROR: Invalid --max-stack value " ++ string_of_Z l
                  ++ nl ++ nl)%string ;;
            usage Stderr ;;
            exit EXIT_FAILURE
          else parse_args (set_max_stack (CLib.to_unsigned l) st) rest')
      else if String.eqb arg "--gc-min-objects" then
        next_arg rest (fun a rest' =>
          r <- strtol_check a ;;
          let st1 := set_gc_min_objects (CLib.to_unsigned r) st in
          let l := gc_min_objects st1 in
          if l <? 1 then
            cerr ("ERROR: Invalid --gc-min-objects value " ++ string_of_Z l
                  ++ nl ++ nl)%string ;;
            usage Stderr ;;
            exit EXIT_FAILURE
          else parse_args (set_gc_min_objects (CLib.to_unsigned l) st1) rest')
      else if String.eqb arg "--gc-growth-trigger" then
        next_arg rest (fun tok rest' =>
          let arg := c_str (released tok) in
          let '(v, ep) := strtod arg in
          let st1 := set_gc_growth_trigger v st in
          if negb (Ascii.eqb (deref ep) NUL) || Ascii.eqb (deref arg) NUL then
            cerr ("ERROR: Invalid number " ++ dquote ++ arg ++ dquote
                  ++ nl)%string ;;
            usage Stderr ;;
            exit EXIT_FAILURE
          else if double_lt_zero (gc_growth_trigger st1) then
            cerr ("ERROR: Invalid --gc-growth-trigger " ++ dquote ++ arg
                  ++ dquote ++ nl ++ nl)%string ;;
            usage Stderr ;;
            exit EXIT_FAILURE
          else parse_args st1 rest')
      else if String.eqb arg "-e" || String.eqb arg "--exec" then
        parse_args (set_filename_is_code true st) rest
      else if String.eqb arg "--debug-ast" then
        parse_args (set_debug_ast true st) rest
      else if String.eqb arg "--" then
        ret (push_remaining rest st)
      else
        parse_args (push_remaining [arg] st) rest
  end.

(** Lines 153-167: the filename is the first positional argument; more than
    one, or none with [-e], ends the process. *)
Definition check_filename {W : World} (st : vars) : proc vars :=
  let st1 :=
    if (0 <? length (remaining_args st))%nat
    then set_filename (hd EmptyString (remaining_args st)) st
    else st in
  if (1 <? length (remaining_args st1))%nat then
    cerr ("ERROR: Filename already specified as " ++ dquote ++ filename st1
          ++ dquote ++ nl ++ nl)%string ;;
    usage Stderr ;;
    exit EXIT_FAILURE
  else if filename_is_code st1 && (length (remaining_args st1) =? 0)%nat then
    cerr ("ERROR: Must give filename when using -e, --exec" ++ nl ++ nl)%string ;;
    usage Stderr ;;
    exit EXIT_FAILURE
  else ret st1.

(** Lines 170-190: the name the input goes by, and the input. *)
Definition read_input {W : World} (st : vars) : proc (string * string) :=
  if filename_is_code st then
    ret ("<cmdline>", filename st)
  else if String.eqb (filename st) "-" then
    emit Read_stdin ;;
    ret ("<stdin>", stdin_contents)
  else
    match read_file (c_str (filename st)) with
    | None =>
        emit (Perror (c_str ("Opening input file: " ++ filename st)%string)) ;;
        exit EXIT_FAILURE
    | Some contents =>
        emit (Read_file (c_str (filename st))) ;;
        ret (filename st, contents)
    end.

(** Lines 210-221: the loop over the frames [stackTrace[i]], ..., with [sz]
    the size of the whole trace. *)
Definition max_above : Z := 10.
Definition max_below : Z := 10.

Definition frame_line {W : World} (f : frame LocationRange) : event :=
  Stderr (tab ++ show_LocationRange (location f) ++ tab ++ name f ++ nl)%string.

Definition ellipsis_line {W : World} : event :=
  Stderr (tab ++ "..." ++ nl)%string.

Fixpoint trace_loop {W : World} (sz i : Z) (frames : list (frame LocationRange))
  : list event :=
  match frames with
  | [] => []
  | f :: rest =>
      (if (max_above <=? i) && (i <? sz - max_below) then
         if i =? max_above then [ellipsis_line] else []
       else [frame_line f])
      ++ trace_loop sz (i + 1) rest
  end.

Definition print_trace {W : World} (stackTrace : list (frame LocationRange))
  : list event :=
  trace_loop (Z.of_nat (length stackTrace)) 0 stackTrace.


(** The handlers of lines 204-224. *)
Definition catch_StaticError {W : World} {A : Type} (e : StaticError)
  : proc A :=
  cerr ("STATIC ERROR: " ++ show_StaticError e ++ nl)%string ;;
  exit EXIT_FAILURE.

Definition catch_RuntimeError {W : World} {A : Type}
    (e : RuntimeError LocationRange) : proc A :=
  cerr ("RUNTIME ERROR: " ++ msg e ++ nl)%string ;;
  (print_trace (stackTrace e), Returns tt) ;;
  exit EXIT_FAILURE.

(** Lines 192-202 under the handlers: parse, then unparse or analyse and
    execute. *)
Definition run_pipeline {W : World} (st : vars) (display_name input : string)
  : proc unit :=
  emit (Call_parse display_name (c_str input)) ;;
  match jsonnet_parse display_name (c_str input) with
  | inl e => catch_StaticError e
  | inr expr =>
      if debug_ast st then
        emit (Call_unparse expr) ;;
        cout (jsonnet_unparse_jsonnet expr ++ nl)%string
      else
        emit (Call_static_analysis expr) ;;
        match jsonnet_static_analysis expr with
        | inl e => catch_StaticError e
        | inr expr' =>
            emit (Call_vm_execute expr' (max_stack st) (gc_min_objects st)
                                  (gc_growth_trigger st)) ;;
            match jsonnet_vm_execute expr' (max_stack st) (gc_min_objects st)
                                     (gc_growth_trigger st) with
            | inl e => catch_RuntimeError e
            | inr text => cout (text ++ nl)%string
            end
        end
  end.

(** Lines 169-225 for the variables as the checks left them. *)
Definition pipeline {W : World} (st : vars) : proc unit :=
  src <- read_input st ;;
  run_pipeline st (fst src) (snd src).

(** The status a finished process leaves: that of [exit] or of the
    [return], [EXIT_SUCCESS] at the end of [main]. *)
Definition finish {W : World} (p : proc unit) : list event * Z :=
  match p with
  | (evs, Returns _) => (evs, EXIT_SUCCESS)
  | (evs, Exits status) => (evs, status)
  end.

Definition main {W : World} (argv : list string) : list event * Z :=
  finish (st <- parse_args initial_vars (simplify_args argv) ;;
          st' <- check_filename st ;;
          pipeline st').

(** ** A collaborator set for running the model

    Numbers are integers, the parser keeps the text, execution gives the
    text back, no file can be opened and the standard input holds [{}]. *)
Definition test_double : World :=
  {| double := Z;
     double_two := 2;
     double_lt_zero := fun x => x <? 0;
     strtod := CLib.strtol;
     released := fun s => s;
     AST := string;
     StaticError := string;
     LocationRange := string;
     show_StaticError := fun e => e;
     show_LocationRange := fun l => l;
     jsonnet_parse := fun _ input => inr input;
     jsonnet_unparse_jsonnet := fun e => e;
     jsonnet_static_analysis := fun e => inr e;
     jsonnet_vm_execute := fun e _ _ _ => inr e;
     stdin_contents := "{}";
     read_file := fun _ => None |}.

(** A collaborator set in which the buffer of the destroyed temporary of
    line 126 starts with a NUL when it is read. *)
Definition cleared_storage : World :=
  {| double := Z;
     double_two := 2;
     double_lt_zero := fun x => x <? 0;
     strtod := CLib.strtol;
     released := fun _ => EmptyString;
     AST := string;
     StaticError := string;
     LocationRange := string;
     show_StaticError := fun e => e;
     show_LocationRange := fun l => l;
     jsonnet_parse := fun _ input => inr input;
     jsonnet_unparse_jsonnet := fun e => e;
     jsonnet_static_analysis := fun e => inr e;
     jsonnet_vm_execute := fun e _ _ _ => inr e;
     stdin_contents := "{}";
     read_file := fun _ => None |}.

(** A collaborator set in which each stage fails on one input: the parser
    on the text [{], the analysis on the expression [x] and the execution on
    the expression [error], with a trace of one frame. *)
Definition failing_stages : World :=
  {| double := Z;
     double_two := 2;
     double_lt_zero := fun x => x <? 0;
     strtod := CLib.strtol;
     released := fun s => s;
     AST := string;
     StaticError := string;
     LocationRange := string;
     show_StaticError := fun e => e;
     show_LocationRange := fun l => l;
     jsonnet_parse := fun file input =>
       if String.eqb input "{"
       then inl (file ++ ":1:2: unexpected end of file")%string
       else inr input;
     jsonnet_unparse_jsonnet := fun e => e;
     jsonnet_static_analysis := fun e =>
       if String.eqb e "x" then inl "unknown variable: x" else inr e;
     jsonnet_vm_execute := fun e _ _ _ =>
       if String.eqb e "error"
       then inl (mk_RuntimeError "bad" [mk_frame "<cmdline>:1:1" "top"])
       else inr e;
     stdin_contents := "{}";
     read_file := fun _ => None |}.

(** ** Notions used in the statements *)

Definition is_help (arg : string) : bool :=
  String.eqb arg "-h" || String.eqb arg "--help".

(** The flags whose branch calls [next_arg]. *)
Definition takes_value (arg : string) : bool :=
  String.eqb arg "-s" || String.eqb arg "--max-stack"
  || String.eqb arg "--gc-min-objects" || String.eqb arg "--gc-growth-trigger".

(** The cursor of the option loop gets past every token of [args]: none is
    a help flag or the terminator where the loop looks for an option, and
    every flag that takes a value has a token after it. *)
Fixpoint cursor_passes (args : list string) : bool :=
  match args with
  | [] => true
  | arg :: rest =>
      if is_help arg || String.eqb arg "--" then false
      else if takes_value arg then
        match rest with
        | [] => false
        | _ :: rest' => cursor_passes rest'
        end
      else cursor_passes rest
  end.

(** The outcome [r] of the option loop with [post] pushed onto
    [remaining_args] when the loop came to its end. *)
Definition with_positional {W : World} (post : list string) (r : proc vars)
  : proc vars :=
  match r with
  | (evs, Returns st) => (evs, Returns (push_remaining post st))
  | (evs, Exits status) => (evs, Exits status)
  end.

(** The tests of lines 129 and 134 on the token [tok]. *)
Definition growth_trigger_rejected {W : World} (tok : string) : bool :=
  let arg := c_str (released tok) in
  let '(v, ep) := strtod arg in
  negb (Ascii.eqb (deref ep) NUL) || Ascii.eqb (deref arg) NUL
  || double_lt_zero v.

(** The events of [evs] that belong to the pipeline: reading the input and
    the calls of the collaborators. *)
Definition is_pipeline_event {W : World} (e : event) : bool :=
  match e with
  | Stdout _ | Stderr _ => false
  | _ => true
  end.

Definition calls_analysis_or_vm {W : World} (e : event) : bool :=
  match e with
  | Call_static_analysis _ | Call_vm_execute _ _ _ _ => true
  | _ => false
  end.

(** ** Notions used in the further statements *)

Definition is_stdout {W : World} (e : event) : bool :=
  match e with
  | Stdout _ => true
  | _ => false
  end.

(** The calls of the collaborators of lines 192-202. *)
Definition is_call {W : World} (e : event) : bool :=
  match e with
  | Call_parse _ _ | Call_unparse _ | Call_static_analysis _
  | Call_vm_execute _ _ _ _ => true
  | _ => false
  end.

(** What goes to the standard error stream, through [std::cerr] or
    [perror]. *)
Definition is_diagnostic {W : World} (e : event) : bool :=
  match e with
  | Stderr _ | Perror _ => true
  | _ => false
  end.

(** The tokens the option loop tests for in lines 106-143. *)
Definition is_option (arg : string) : bool :=
  is_help arg || takes_value arg
  || String.eqb arg "-e" || String.eqb arg "--exec"
  || String.eqb arg "--debug-ast" || String.eqb arg "--".

(** How the option loop can end, for a property [I] of the variables: at
    the end of the stream with nothing written and [I] of the variables;
    with the usage text on standard output and success status; or with text
    on standard error and failure status. *)
Definition loop_outcome {W : World} (I : vars -> Prop) (r : proc vars) : Prop :=
  match r with
  | (evs, Returns st') => evs = [] /\ I st'
  | (evs, Exits status) =>
      (status = EXIT_SUCCESS /\ evs = [Stdout usage_text])
      \/ (status = EXIT_FAILURE /\ evs <> []
          /\ Forall (fun e => is_diagnostic e = true) evs)
  end.

(** How a run can end: with success status, nothing on standard error and
    one text on standard output, written last; or with failure status,
    nothing on standard output and something on standard error. *)
Definition stream_discipline {W : World} (r : list event * Z) : Prop :=
  (snd r = EXIT_SUCCESS
   /\ Forall (fun e => is_diagnostic e = false) (fst r)
   /\ exists pre text,
        fst r = pre ++ [Stdout text]
        /\ Forall (fun e => is_stdout e = false) pre)
  \/ (snd r = EXIT_FAILURE
      /\ Forall (fun e => is_stdout e = false) (fst r)
      /\ Exists (fun e => is_diagnostic e = true) (fst r)).

(** The values the unsigned fields can hold when execution is called, and
    the growth triggers the option loop lets through. *)
Definition limits_in_range {W : World} (st : vars) : Prop :=
  0 <= max_stack st < 2 ^ 32
  /\ 1 <= gc_min_objects st < 2 ^ 32
  /\ (gc_growth_trigger st = double_two
      \/ double_lt_zero (gc_growth_trigger st) = false).

(** No token in front of the first [--] is a cluster. *)
Fixpoint settled (raw : list string) : bool :=
  match raw with
  | [] => true
  | arg :: rest =>
      if String.eqb arg "--" then true
      else negb (is_cluster arg) && settled rest
  end.

Fixpoint string_forallb (p : ascii -> bool) (s : string) : bool :=
  match s with
  | EmptyString => true
  | String c s' => p c && string_forallb p s'
  end.

(** The tokens that read as a decimal integer: white space, then at most
    one sign, then one digit or more, and nothing after. *)
Definition integer_token (s : string) : Prop :=
  exists ws sign ds : string,
    s = (ws ++ sign ++ ds)%string
    /\ string_forallb CLib.isspace ws = true
    /\ (sign = "" \/ sign = "+" \/ sign = "-")
    /\ ds <> ""
    /\ string_forallb CLib.isdigit ds = true.

(** Proof steps for statements about lists of events. *)
Ltac find_event :=
  repeat first [ apply Exists_cons_hd; reflexivity | apply Exists_cons_tl ].

Ltac all_events :=
  repeat first [ apply Forall_nil | apply Forall_cons; [reflexivity|] ].

(** The number a decimal numeral of the Standard Library stands for, read
    digit by digit on top of [acc]. *)
Fixpoint uint_digits (d : Decimal.uint) (acc : Z) : Z :=
  match d with
  | Decimal.Nil => acc
  | Decimal.D0 l => uint_digits l (10 * acc + 0)
  | Decimal.D1 l => uint_digits l (10 * acc + 1)
  | Decimal.D2 l => uint_digits l (10 * acc + 2)
  | Decimal.D3 l => uint_digits l (10 * acc + 3)
  | Decimal.D4 l => uint_digits l (10 * acc + 4)
  | Decimal.D5 l => uint_digits l (10 * acc + 5)
  | Decimal.D6 l => uint_digits l (10 * acc + 6)
  | Decimal.D7 l => uint_digits l (10 * acc + 7)
  | Decimal.D8 l => uint_digits l (10 * acc + 8)
  | Decimal.D9 l => uint_digits l (10 * acc + 9)
  end.

(** * Properties *)

(** ** C strings *)

Lemma ascii_eqb_false (a b : ascii) : a <> b -> Ascii.eqb a b = false.
Proof. intro H. apply Ascii.eqb_neq. exact H. Qed.

Lemma c_str_idem (s : string) : c_str (c_str s) = c_str s.
Proof.
  induction s as [|c s IH]; simpl; [reflexivity|].
  destruct (Ascii.eqb c NUL) eqn:E; simpl; [reflexivity|].
  rewrite E, IH. reflexivity.
Qed.

(** A string that is its own [c_str] holds no NUL: so does its tail. *)
Lemma nul_free_tail (c : ascii) (s : string) :
  c_str (String c s) = String c s -> Ascii.eqb c NUL = false /\ c_str s = s.
Proof.
  simpl. destruct (Ascii.eqb c NUL); [discriminate|].
  intro H. injection H as H. split; [reflexivity | exact H].
Qed.

Lemma nul_free_deref (p : string) :
  c_str p = p -> Ascii.eqb (deref p) NUL = String.eqb p "".
Proof.
  destruct p as [|c p]; [reflexivity|].
  intro H. apply nul_free_tail in H. simpl. tauto.
Qed.

Lemma skip_space_nul_free (s : string) :
  c_str s = s -> c_str (CLib.skip_space s) = CLib.skip_space s.
Proof.
  induction s as [|c s IH]; intro H; [reflexivity|].
  simpl. destruct (CLib.isspace c); [|exact H].
  apply IH. apply (nul_free_tail c s H).
Qed.

Lemma digits_nul_free (s : string) (acc : Z) :
  c_str s = s -> c_str (snd (CLib.digits acc s)) = snd (CLib.digits acc s).
Proof.
  revert acc. induction s as [|c s IH]; intros acc H; [reflexivity|].
  simpl. destruct (CLib.isdigit c); [|exact H].
  apply IH. apply (nul_free_tail c s H).
Qed.

(** What [strtol] does once white space and sign are gone. *)
Lemma strtol_body_nul_free (nptr body : string) (neg : bool) :
  c_str nptr = nptr -> c_str body = body ->
  let r := if CLib.isdigit (deref body)
           then let '(mag, ep) := CLib.digits 0 body in
                (CLib.clamp_long (if neg then - mag else mag), ep)
           else (0, nptr) in
  c_str (snd r) = snd r.
Proof.
  intros Hn Hb. cbv zeta.
  destruct (CLib.isdigit (deref body)); [|exact Hn].
  pose proof (digits_nul_free body 0 Hb) as Hd.
  destruct (CLib.digits 0 body) as [mag ep]. exact Hd.
Qed.

Lemma strtol_nul_free (s : string) :
  c_str s = s -> c_str (snd (CLib.strtol s)) = snd (CLib.strtol s).
Proof.
  intro H. unfold CLib.strtol.
  pose proof (skip_space_nul_free s H) as Hs.
  destruct (CLib.skip_space s) as [|c s'] eqn:E; cbv zeta.
  - exact H.
  - pose proof (nul_free_tail c s' Hs) as [_ Hs'].
    destruct (Ascii.eqb c "-");
      [exact (strtol_body_nul_free s s' true H Hs')|].
    destruct (Ascii.eqb c "+");
      [exact (strtol_body_nul_free s s' false H Hs')|].
    exact (strtol_body_nul_free s (String c s') false H Hs).
Qed.

(** ** The integer validator *)

(** What [strtol_check] writes before it ends the process. *)
Lemma strtol_check_cases (W : World) (str : string) :
  let arg := c_str str in
  strtol_check str =
    if negb (String.eqb (snd (CLib.strtol arg)) "") || String.eqb arg ""
    then ([Stderr ("ERROR: Invalid integer " ++ dquote ++ arg ++ dquote
                   ++ nl ++ nl)%string;
           Stderr usage_text], Exits EXIT_FAILURE)
    else ([], Returns (fst (CLib.strtol arg))).
Proof.
  cbv zeta. unfold strtol_check.
  pose proof (strtol_nul_free (c_str str) (c_str_idem str)) as Hep.
  destruct (CLib.strtol (c_str str)) as [r ep]. simpl fst. simpl snd in *.
  rewrite (nul_free_deref ep Hep), (nul_free_deref (c_str str) (c_str_idem str)).
  destruct (negb (String.eqb ep "") || String.eqb (c_str str) ""); reflexivity.
Qed.

Lemma clamp_long_in_range (v : Z) :
  CLib.LONG_MIN <= CLib.clamp_long v <= CLib.LONG_MAX.
Proof.
  unfold CLib.clamp_long, CLib.LONG_MIN, CLib.LONG_MAX.
  destruct (Z.ltb_spec v (- 2 ^ 63)); [lia|].
  destruct (Z.ltb_spec (2 ^ 63 - 1) v); lia.
Qed.

Lemma strtol_in_range (s : string) :
  CLib.LONG_MIN <= fst (CLib.strtol s) <= CLib.LONG_MAX.
Proof.
  assert (Hzero : CLib.LONG_MIN <= 0 <= CLib.LONG_MAX)
    by (unfold CLib.LONG_MIN, CLib.LONG_MAX; lia).
  assert (Hb : forall (neg : bool) (body : string),
    CLib.LONG_MIN
    <= fst (if CLib.isdigit (deref body)
            then let '(mag, ep) := CLib.digits 0 body in
                 (CLib.clamp_long (if neg then - mag else mag), ep)
            else (0, s))
    <= CLib.LONG_MAX).
  { intros neg body. destruct (CLib.isdigit (deref body)); [|exact Hzero].
    destruct (CLib.digits 0 body) as [mag ep]. apply clamp_long_in_range. }
  unfold CLib.strtol. destruct (CLib.skip_space s) as [|c s']; cbv zeta.
  - exact (Hb false EmptyString).
  - destruct (Ascii.eqb c "-"); [exact (Hb true s')|].
    destruct (Ascii.eqb c "+");
      [exact (Hb false s') | exact (Hb false (String c s'))].
Qed.

(** C10.  [strtol_check] ends the process with failure status exactly for a
    token that is empty or has characters left after what [strtol] converts;
    every other token is accepted with the value of [strtol], which always
    lies between [LONG_MIN] and [LONG_MAX].  So leading white space and a
    plus sign are accepted, and a token out of the range of [long] is
    accepted with the value [LONG_MAX] or [LONG_MIN]. *)
Theorem strtol_check_rejects_iff (W : World) (str : string) :
  let arg := c_str str in
  ((exists evs, strtol_check str = (evs, Exits EXIT_FAILURE))
     <-> (arg = "" \/ snd (CLib.strtol arg) <> ""))
  /\ (strtol_check str = ([], Returns (fst (CLib.strtol arg)))
        <-> (arg <> "" /\ snd (CLib.strtol arg) = ""))
  /\ CLib.LONG_MIN <= fst (CLib.strtol arg) <= CLib.LONG_MAX
  /\ strtol_check " 5" = ([], Returns 5)
  /\ strtol_check "+5" = ([], Returns 5)
  /\ strtol_check "99999999999999999999" = ([], Returns CLib.LONG_MAX)
  /\ strtol_check "-99999999999999999999" = ([], Returns CLib.LONG_MIN).
Proof.
  cbv zeta. pose proof (strtol_check_cases W str) as H. cbv zeta in H.
  split; [|split; [|split; [apply strtol_in_range | repeat split; reflexivity]]].
  - rewrite H. split.
    + intros [evs Hev].
      destruct (String.eqb (snd (CLib.strtol (c_str str))) "") eqn:E1;
        destruct (String.eqb (c_str str) "") eqn:E2; simpl in Hev;
        try discriminate.
      * left. apply String.eqb_eq. exact E2.
      * left. apply String.eqb_eq. exact E2.
      * right. apply String.eqb_neq. exact E1.
    + intros [Ha | Hr].
      * apply String.eqb_eq in Ha. rewrite Ha, orb_true_r. eexists. reflexivity.
      * apply String.eqb_neq in Hr. rewrite Hr. simpl. eexists. reflexivity.
  - rewrite H.
    destruct (String.eqb_spec (snd (CLib.strtol (c_str str))) "") as [E1|E1];
      destruct (String.eqb_spec (c_str str) "") as [E2|E2]; simpl;
      split; try discriminate; tauto.
Qed.

(** ** The argument normalizer *)

Lemma substring_0_0 (s : string) : String.substring 0 0 s = "".
Proof. destruct s; reflexivity. Qed.

Lemma expand_tail (s : string) :
  map (fun j => ("-" ++ String.substring j 1 s)%string) (seq 0 (String.length s))
  = dash_each s.
Proof.
  unfold dash_each. induction s as [|c s IH]; [reflexivity|].
  simpl String.length. rewrite <- cons_seq, <- seq_shift, map_cons, map_map.
  simpl list_ascii_of_string. rewrite map_cons, <- IH.
  f_equal. simpl. rewrite substring_0_0. reflexivity.
Qed.

Lemma expand_cluster_chars (a : ascii) (s : string) :
  expand_cluster (String a s) = dash_each s.
Proof.
  unfold expand_cluster. simpl String.length.
  replace (S (String.length s) - 1)%nat with (String.length s) by lia.
  rewrite <- seq_shift, map_map. apply expand_tail.
Qed.

(** The loop body of lines 49-56 does to a token what the rule says. *)
Lemma loop_body_is_rule (arg : string) :
  (if is_cluster arg then expand_cluster arg else [arg])
  = normalize_token_spec arg.
Proof.
  destruct arg as [|a [|b [|c rest]]]; try reflexivity.
  unfold is_cluster, char_at, normalize_token_spec.
  change ((2 <? String.length (String a (String b (String c rest))))%nat)
    with true.
  simpl String.get. rewrite andb_true_l.
  destruct (Ascii.eqb a "-" && negb (Ascii.eqb b "-")); [|reflexivity].
  apply expand_cluster_chars.
Qed.

Lemma simplify_loop_no_terminator (raw : list string) :
  ~ In "--" raw -> simplify_loop raw = flat_map normalize_token_spec raw.
Proof.
  induction raw as [|arg rest IH]; intro H; [reflexivity|].
  simpl. destruct (String.eqb_spec arg "--") as [E|E].
  - exfalso. apply H. left. exact E.
  - rewrite <- loop_body_is_rule, <- IH.
    + destruct (is_cluster arg); reflexivity.
    + intro Hin. apply H. right. exact Hin.
Qed.

Lemma simplify_loop_terminator (pre post : list string) :
  ~ In "--" pre ->
  simplify_loop (pre ++ "--" :: post) = simplify_loop pre ++ "--" :: post.
Proof.
  induction pre as [|arg rest IH]; intro H; [reflexivity|].
  simpl. destruct (String.eqb_spec arg "--") as [E|E].
  - exfalso. apply H. left. exact E.
  - rewrite IH by (intro Hin; apply H; right; exact Hin).
    destruct (is_cluster arg); [rewrite app_assoc|]; reflexivity.
Qed.

(** C5, as the specification words it, fails: a cluster after the terminator
    is not split. *)
Lemma cluster_after_terminator_not_split :
  simplify_args ["jsonnet"; "--"; "-abc"]
  <> flat_map normalize_token_spec (tl ["jsonnet"; "--"; "-abc"]).
Proof. vm_compute. discriminate. Qed.

(** C5, amended.  Up to the first [--] the normalizer applies the rule to
    every token, in order: a token of length > 2 with a dash first and no
    dash second becomes one dashed token per character after the dash, every
    other token passes unchanged; [--] and what follows it are passed on as
    they are. *)
Theorem simplify_args_rule_before_terminator
    (prog : string) (pre post : list string) :
  ~ In "--" pre ->
  simplify_args (prog :: pre) = flat_map normalize_token_spec pre
  /\ simplify_args (prog :: pre ++ "--" :: post)
     = flat_map normalize_token_spec pre ++ "--" :: post
  /\ normalize_token_spec "-abc" = ["-a"; "-b"; "-c"]
  /\ normalize_token_spec "--max-stack" = ["--max-stack"]
  /\ normalize_token_spec "-x" = ["-x"]
  /\ normalize_token_spec "-" = ["-"]
  /\ normalize_token_spec "file.jsonnet" = ["file.jsonnet"].
Proof.
  intro H. unfold simplify_args. simpl tl.
  rewrite simplify_loop_terminator, simplify_loop_no_terminator by exact H.
  repeat split; reflexivity.
Qed.

Lemma simplify_args_rule_before_terminator_witness :
  simplify_args ["jsonnet"; "-es"; "5"; "--"; "-abc"]
  = ["-e"; "-s"; "5"; "--"; "-abc"].
Proof.
  refine (proj1 (proj2 (simplify_args_rule_before_terminator
                          "jsonnet" ["-es"; "5"] ["-abc"] _))).
  simpl. intros [H|[H|[]]]; discriminate H.
Defined.

(** ** The process monad *)

Lemma bind_ret_l (W : World) (A B : Type) (a : A) (f : A -> proc B) :
  bind (ret a) f = f a.
Proof. unfold bind, ret. destruct (f a). reflexivity. Qed.

Lemma bind_exits (W : World) (A B : Type) (evs : list event) (status : Z)
    (f : A -> proc B) :
  bind (evs, Exits status) f = (evs, Exits status).
Proof. reflexivity. Qed.

Lemma bind_returns (W : World) (A B : Type) (evs : list event) (a : A)
    (f : A -> proc B) :
  bind (evs, Returns a) f = (evs ++ fst (f a), snd (f a)).
Proof. unfold bind. destruct (f a). reflexivity. Qed.

Lemma with_positional_bind (W : World) (A : Type) (post : list string)
    (m : proc A) (f : A -> proc vars) :
  with_positional post (bind m f)
  = bind m (fun a => with_positional post (f a)).
Proof.
  destruct m as [evs [a|status]]; [|reflexivity].
  unfold bind. destruct (f a) as [evs' [st|status]]; reflexivity.
Qed.

Lemma push_remaining_app (W : World) (a b : list string) (st : vars) :
  push_remaining b (push_remaining a st) = push_remaining (a ++ b) st.
Proof. unfold push_remaining. simpl. rewrite app_assoc. reflexivity. Qed.

(** ** The option loop, branch by branch *)

Lemma parse_args_help (W : World) (st : vars) (arg : string)
    (rest : list string) :
  is_help arg = true ->
  parse_args st (arg :: rest) = ([Stdout usage_text], Exits EXIT_SUCCESS).
Proof. unfold is_help. intro H. simpl. rewrite H. reflexivity. Qed.

Lemma parse_args_max_stack (W : World) (st : vars) (arg : string)
    (rest : list string) :
  arg = "-s" \/ arg = "--max-stack" ->
  parse_args st (arg :: rest) =
    next_arg rest (fun a rest' =>
      l <- strtol_check a ;;
      if l <? 1 then
        cerr ("ERROR: Invalid --max-stack value " ++ string_of_Z l
              ++ nl ++ nl)%string ;;
        usage Stderr ;;
        exit EXIT_FAILURE
      else parse_args (set_max_stack (CLib.to_unsigned l) st) rest').
Proof. intros [H|H]; subst arg; reflexivity. Qed.

Lemma parse_args_gc_min_objects (W : World) (st : vars) (rest : list string) :
  parse_args st ("--gc-min-objects" :: rest) =
    next_arg rest (fun a rest' =>
      r <- strtol_check a ;;
      let st1 := set_gc_min_objects (CLib.to_unsigned r) st in
      let l := gc_min_objects st1 in
      if l <? 1 then
        cerr ("ERROR: Invalid --gc-min-objects value " ++ string_of_Z l
              ++ nl ++ nl)%string ;;
        usage Stderr ;;
        exit EXIT_FAILURE
      else parse_args (set_gc_min_objects (CLib.to_unsigned l) st1) rest').
Proof. reflexivity. Qed.

Lemma parse_args_gc_growth_trigger (W : World) (st : vars)
    (rest : list string) :
  parse_args st ("--gc-growth-trigger" :: rest) =
    next_arg rest (fun tok rest' =>
      let arg := c_str (released tok) in
      let '(v, ep) := strtod arg in
      let st1 := set_gc_growth_trigger v st in
      if negb (Ascii.eqb (deref ep) NUL) || Ascii.eqb (deref arg) NUL then
        cerr ("ERROR: Invalid number " ++ dquote ++ arg ++ dquote
              ++ nl)%string ;;
        usage Stderr ;;
        exit EXIT_FAILURE
      else if double_lt_zero (gc_growth_trigger st1) then
        cerr ("ERROR: Invalid --gc-growth-trigger " ++ dquote ++ arg
              ++ dquote ++ nl ++ nl)%string ;;
        usage Stderr ;;
        exit EXIT_FAILURE
      else parse_args st1 rest').
Proof. reflexivity. Qed.

Lemma parse_args_terminator (W : World) (st : vars) (rest : list string) :
  parse_args st ("--" :: rest) = ([], Returns (push_remaining rest st)).
Proof. reflexivity. Qed.

Lemma strtol_check_terminator (W : World) :
  strtol_check "--" =
    ([Stderr ("ERROR: Invalid integer " ++ dquote ++ "--" ++ dquote
              ++ nl ++ nl)%string;
      Stderr usage_text], Exits EXIT_FAILURE).
Proof. reflexivity. Qed.

Lemma bind_ext (W : World) (A B : Type) (m : proc A) (f g : A -> proc B) :
  (forall a, f a = g a) -> bind m f = bind m g.
Proof.
  intro H. destruct m as [evs [a|status]]; [|reflexivity].
  unfold bind. rewrite H. reflexivity.
Qed.

(** One turn of the loop of lines 104-151. *)
Lemma parse_args_cons (W : World) (st : vars) (arg : string)
    (rest : list string) :
  parse_args st (arg :: rest) =
    if String.eqb arg "-h" || String.eqb arg "--help" then
      usage Stdout ;;
      exit EXIT_SUCCESS
    else if String.eqb arg "-s" || String.eqb arg "--max-stack" then
      next_arg rest (fun a rest' =>
        l <- strtol_check a ;;
        if l <? 1 then
          cerr ("ERROR: Invalid --max-stack value " ++ string_of_Z l
                ++ nl ++ nl)%string ;;
          usage Stderr ;;
          exit EXIT_FAILURE
        else parse_args (set_max_stack (CLib.to_unsigned l) st) rest')
    else if String.eqb arg "--gc-min-objects" then
      parse_args st ("--gc-min-objects" :: rest)
    else if String.eqb arg "--gc-growth-trigger" then
      parse_args st ("--gc-growth-trigger" :: rest)
    else if String.eqb arg "-e" || String.eqb arg "--exec" then
      parse_args (set_filename_is_code true st) rest
    else if String.eqb arg "--debug-ast" then
      parse_args (set_debug_ast true st) rest
    else if String.eqb arg "--" then
      ret (push_remaining rest st)
    else
      parse_args (push_remaining [arg] st) rest.
Proof.
  destruct (String.eqb_spec arg "--gc-min-objects") as [E|E];
    [subst arg; reflexivity|].
  destruct (String.eqb_spec arg "--gc-growth-trigger") as [E'|E'];
    [subst arg; reflexivity|].
  simpl. apply String.eqb_neq in E, E'. rewrite E, E'. reflexivity.
Qed.

(** Once [--] is in the stream, what follows it is only ever pushed onto
    [remaining_args], provided [--] itself is not read as a valid growth
    trigger by the branch of line 125. *)
Lemma parse_args_after_terminator (W : World) (post : list string) :
  growth_trigger_rejected "--" = true ->
  forall (a : list string) (st : vars),
    parse_args st (a ++ "--" :: post)
    = with_positional post (parse_args st (a ++ ["--"])).
Proof.
  intros Hrej a.
  assert (H : forall n a, (length a <= n)%nat -> forall st,
             parse_args st (a ++ "--" :: post)
             = with_positional post (parse_args st (a ++ ["--"]))).
  { clear a. induction n as [|n IH]; intros a Hlen st.
    - destruct a as [|t a']; [|simpl in Hlen; lia].
      simpl app. rewrite !parse_args_terminator. simpl.
      rewrite push_remaining_app. reflexivity.
    - destruct a as [|t a'].
      { simpl app. rewrite !parse_args_terminator. simpl.
        rewrite push_remaining_app. reflexivity. }
      simpl in Hlen. simpl app. rewrite !(parse_args_cons W st t).
      destruct (String.eqb t "-h" || String.eqb t "--help"); [reflexivity|].
      destruct (String.eqb t "-s" || String.eqb t "--max-stack").
      { destruct a' as [|v a'']; simpl app; unfold next_arg.
        - rewrite strtol_check_terminator, !bind_exits. reflexivity.
        - rewrite with_positional_bind. apply bind_ext. intro l.
          destruct (l <? 1); [reflexivity|].
          apply IH. simpl in Hlen. lia. }
      destruct (String.eqb t "--gc-min-objects").
      { rewrite !parse_args_gc_min_objects.
        destruct a' as [|v a'']; simpl app; unfold next_arg.
        - rewrite strtol_check_terminator, !bind_exits. reflexivity.
        - rewrite with_positional_bind. apply bind_ext. intro l. cbv zeta.
          destruct (gc_min_objects (set_gc_min_objects (CLib.to_unsigned l) st)
                    <? 1); [reflexivity|].
          apply IH. simpl in Hlen. lia. }
      destruct (String.eqb t "--gc-growth-trigger").
      { rewrite !parse_args_gc_growth_trigger.
        destruct a' as [|v a'']; simpl app; unfold next_arg; cbv zeta.
        - unfold growth_trigger_rejected in Hrej. cbv zeta in Hrej.
          destruct (strtod (c_str (released "--"))) as [x ep].
          destruct (negb (Ascii.eqb (deref ep) NUL)
                    || Ascii.eqb (deref (c_str (released "--"))) NUL);
            [reflexivity|].
          simpl in Hrej. simpl gc_growth_trigger. rewrite Hrej. reflexivity.
        - destruct (strtod (c_str (released v))) as [x ep].
          destruct (negb (Ascii.eqb (deref ep) NUL)
                    || Ascii.eqb (deref (c_str (released v))) NUL);
            [reflexivity|].
          destruct (double_lt_zero
                      (gc_growth_trigger (set_gc_growth_trigger x st)));
            [reflexivity|].
          apply IH. simpl in Hlen. lia. }
      destruct (String.eqb t "-e" || String.eqb t "--exec");
        [apply IH; lia|].
      destruct (String.eqb t "--debug-ast"); [apply IH; lia|].
      destruct (String.eqb t "--").
      { unfold ret, with_positional. rewrite push_remaining_app, <- app_assoc.
        reflexivity. }
      apply IH. lia. }
  intro st. apply (H (length a)). lia.
Qed.

(** ** A flag without its value *)

Lemma bind_assoc (W : World) (A B C : Type) (m : proc A) (f : A -> proc B)
    (g : B -> proc C) :
  bind (bind m f) g = bind m (fun a => bind (f a) g).
Proof.
  destruct m as [evs [a|status]]; [|reflexivity].
  unfold bind. destruct (f a) as [evs' [b|status]]; [|reflexivity].
  destruct (g b) as [evs'' r]. rewrite app_assoc. reflexivity.
Qed.

(** Where the cursor gets past every token of [a], the loop over [a ++ b] is
    the loop over [a] followed by the loop over [b]. *)
Lemma parse_args_app (W : World) (b : list string) :
  forall (a : list string) (st : vars),
    cursor_passes a = true ->
    parse_args st (a ++ b) = (st' <- parse_args st a ;; parse_args st' b).
Proof.
  intro a.
  assert (H : forall n a, (length a <= n)%nat -> forall st,
             cursor_passes a = true ->
             parse_args st (a ++ b)
             = (st' <- parse_args st a ;; parse_args st' b)).
  { clear a. induction n as [|n IH]; intros a Hlen st Hp.
    - destruct a as [|t a']; [|simpl in Hlen; lia].
      simpl app. simpl parse_args. rewrite bind_ret_l. reflexivity.
    - destruct a as [|t a'].
      { simpl app. simpl parse_args. rewrite bind_ret_l. reflexivity. }
      simpl in Hlen. simpl app. rewrite !(parse_args_cons W st t).
      simpl in Hp. unfold is_help, takes_value in Hp.
      destruct (String.eqb t "-h" || String.eqb t "--help");
        [discriminate Hp|].
      destruct (String.eqb t "--") eqn:Et; [discriminate Hp|].
      simpl in Hp.
      destruct (String.eqb t "-s" || String.eqb t "--max-stack").
      { destruct a' as [|v a'']; [discriminate Hp|].
        simpl in Hp. simpl app. unfold next_arg.
        rewrite bind_assoc. apply bind_ext. intro l.
        destruct (l <? 1); [reflexivity|].
        apply IH; [simpl in Hlen; lia | exact Hp]. }
      destruct (String.eqb t "--gc-min-objects").
      { destruct a' as [|v a'']; [discriminate Hp|].
        simpl in Hp. rewrite !parse_args_gc_min_objects.
        simpl app. unfold next_arg.
        rewrite bind_assoc. apply bind_ext. intro l. cbv zeta.
        destruct (gc_min_objects (set_gc_min_objects (CLib.to_unsigned l) st)
                  <? 1); [reflexivity|].
        apply IH; [simpl in Hlen; lia | exact Hp]. }
      destruct (String.eqb t "--gc-growth-trigger").
      { destruct a' as [|v a'']; [discriminate Hp|].
        simpl in Hp. rewrite !parse_args_gc_growth_trigger.
        simpl app. unfold next_arg. cbv zeta.
        destruct (strtod (c_str (released v))) as [x ep].
        destruct (negb (Ascii.eqb (deref ep) NUL)
                  || Ascii.eqb (deref (c_str (released v))) NUL);
          [reflexivity|].
        destruct (double_lt_zero
                    (gc_growth_trigger (set_gc_growth_trigger x st)));
          [reflexivity|].
        apply IH; [simpl in Hlen; lia | exact Hp]. }
      simpl in Hp.
      destruct (String.eqb t "-e" || String.eqb t "--exec");
        [apply IH; [lia | exact Hp]|].
      destruct (String.eqb t "--debug-ast"); [apply IH; [lia | exact Hp]|].
      apply IH; [lia | exact Hp]. }
  intros st Hp. apply (H (length a)); [lia | exact Hp].
Qed.

Lemma parse_args_lone_flag (W : World) (st : vars) (flag : string) :
  takes_value flag = true ->
  parse_args st [flag]
  = ([Stderr ("Expected another commandline argument." ++ nl)%string],
     Exits EXIT_FAILURE).
Proof.
  unfold takes_value. intro H.
  destruct (String.eqb_spec flag "-s") as [E|_]; [subst; reflexivity|].
  destruct (String.eqb_spec flag "--max-stack") as [E|_]; [subst; reflexivity|].
  destruct (String.eqb_spec flag "--gc-min-objects") as [E|_];
    [subst; reflexivity|].
  destruct (String.eqb_spec flag "--gc-growth-trigger") as [E|_];
    [subst; reflexivity|].
  discriminate H.
Qed.

(** The option loop only writes to the two streams, and leaves [filename]
    as it found it. *)
Lemma parse_args_quiet (W : World) :
  forall (args : list string) (st : vars),
    Forall (fun e => is_pipeline_event e = false) (fst (parse_args st args))
    /\ (forall st', snd (parse_args st args) = Returns st' ->
        filename st' = filename st).
Proof.
  intro args.
  assert (H : forall n args, (length args <= n)%nat -> forall st,
             Forall (fun e => is_pipeline_event e = false)
                    (fst (parse_args st args))
             /\ (forall st', snd (parse_args st args) = Returns st' ->
                 filename st' = filename st)).
  { clear args.
    induction n as [|n IH]; intros args Hlen st.
    - destruct args as [|t rest]; [|simpl in Hlen; lia].
      simpl. split; [constructor|]. intros st' E. injection E as E.
      subst st'. reflexivity.
    - destruct args as [|t rest].
      { simpl. split; [constructor|]. intros st' E. injection E as E.
        subst st'. reflexivity. }
      simpl in Hlen. rewrite (parse_args_cons W st t).
      destruct (String.eqb t "-h" || String.eqb t "--help").
      { split; [repeat constructor|]. intros ? Hd. discriminate Hd. }
      destruct (String.eqb t "-s" || String.eqb t "--max-stack").
      { destruct rest as [|v rest']; unfold next_arg.
        { split; [repeat constructor|]. intros ? Hd. discriminate Hd. }
        rewrite strtol_check_cases. cbv zeta.
        destruct (negb (String.eqb (snd (CLib.strtol (c_str v))) "")
                  || String.eqb (c_str v) "").
        { split; [repeat constructor|]. intros ? Hd. discriminate Hd. }
        change ([], Returns (fst (CLib.strtol (c_str v))))
          with (ret (fst (CLib.strtol (c_str v)))).
        rewrite bind_ret_l.
        destruct (fst (CLib.strtol (c_str v)) <? 1).
        { split; [repeat constructor|]. intros ? Hd. discriminate Hd. }
        assert (Hl : (length rest' <= n)%nat) by (simpl in Hlen; lia).
        exact (IH rest' Hl (set_max_stack _ st)). }
      destruct (String.eqb t "--gc-min-objects").
      { rewrite parse_args_gc_min_objects.
        destruct rest as [|v rest']; unfold next_arg.
        { split; [repeat constructor|]. intros ? Hd. discriminate Hd. }
        rewrite strtol_check_cases. cbv zeta.
        destruct (negb (String.eqb (snd (CLib.strtol (c_str v))) "")
                  || String.eqb (c_str v) "").
        { split; [repeat constructor|]. intros ? Hd. discriminate Hd. }
        change ([], Returns (fst (CLib.strtol (c_str v))))
          with (ret (fst (CLib.strtol (c_str v)))).
        rewrite bind_ret_l.
        destruct (gc_min_objects
                    (set_gc_min_objects
                       (CLib.to_unsigned (fst (CLib.strtol (c_str v)))) st)
                  <? 1).
        { split; [repeat constructor|]. intros ? Hd. discriminate Hd. }
        assert (Hl : (length rest' <= n)%nat) by (simpl in Hlen; lia).
        exact (IH rest' Hl (set_gc_min_objects _ (set_gc_min_objects _ st))). }
      destruct (String.eqb t "--gc-growth-trigger").
      { rewrite parse_args_gc_growth_trigger.
        destruct rest as [|v rest']; unfold next_arg; cbv zeta.
        { split; [repeat constructor|]. intros ? Hd. discriminate Hd. }
        destruct (strtod (c_str (released v))) as [x ep].
        destruct (negb (Ascii.eqb (deref ep) NUL)
                  || Ascii.eqb (deref (c_str (released v))) NUL).
        { split; [repeat constructor|]. intros ? Hd. discriminate Hd. }
        destruct (double_lt_zero
                    (gc_growth_trigger (set_gc_growth_trigger x st))).
        { split; [repeat constructor|]. intros ? Hd. discriminate Hd. }
        assert (Hl : (length rest' <= n)%nat) by (simpl in Hlen; lia).
        exact (IH rest' Hl (set_gc_growth_trigger x st)). }
      assert (Hl : (length rest <= n)%nat) by lia.
      destruct (String.eqb t "-e" || String.eqb t "--exec");
        [exact (IH rest Hl (set_filename_is_code true st))|].
      destruct (String.eqb t "--debug-ast");
        [exact (IH rest Hl (set_debug_ast true st))|].
      destruct (String.eqb t "--").
      { simpl. split; [constructor|]. intros st' E. injection E as E.
        subst st'. reflexivity. }
      exact (IH rest Hl (push_remaining [t] st)). }
  intro st. apply (H (length args)). lia.
Qed.

Lemma finish_bind_returns (W : World) (A : Type) (evs : list event) (a : A)
    (f : A -> proc unit) :
  finish (bind (evs, Returns a) f)
  = (evs ++ fst (finish (f a)), snd (finish (f a))).
Proof.
  unfold bind. destruct (f a) as [evs' [u|status]]; reflexivity.
Qed.

(** C9, as stated, fails: a value-consuming flag can be the last token of
    the normalized stream and never be looked at as an option.  After a help
    flag the process has already ended with success; after the terminator
    the flag is the filename, and the process goes on to open it. *)
Lemma value_flag_last_not_always_fatal :
  simplify_args ["jsonnet"; "-h"; "-s"] = ["-h"; "-s"]
  /\ @main test_double ["jsonnet"; "-h"; "-s"]
     = ([Stdout usage_text], EXIT_SUCCESS)
  /\ simplify_args ["jsonnet"; "--"; "-s"] = ["--"; "-s"]
  /\ @main test_double ["jsonnet"; "--"; "-s"]
     = ([Perror "Opening input file: -s"], EXIT_FAILURE).
Proof. repeat split; reflexivity. Qed.

(** C9, amended.  When the normalized stream ends with a value-consuming
    flag and the option loop gets to that flag (its cursor passes every
    earlier token, and the loop over the earlier tokens comes to its end
    without ending the process), the process writes "Expected another
    commandline argument." to standard error and ends with failure status;
    nothing of the pipeline has run. *)
Theorem missing_option_value (W : World) (argv pre : list string)
    (flag : string) (evs : list event) (st : vars) :
  takes_value flag = true ->
  simplify_args argv = pre ++ [flag] ->
  cursor_passes pre = true ->
  parse_args initial_vars pre = (evs, Returns st) ->
  parse_args st [flag]
    = ([Stderr ("Expected another commandline argument." ++ nl)%string],
       Exits EXIT_FAILURE)
  /\ main argv
     = (evs ++ [Stderr ("Expected another commandline argument." ++ nl)%string],
        EXIT_FAILURE)
  /\ Forall (fun e => is_pipeline_event e = false) (fst (main argv)).
Proof.
  intros Hflag Hargs Hpass Hpre.
  pose proof (parse_args_lone_flag W st flag Hflag) as Hlone.
  assert (Hmain : main argv
     = (evs ++ [Stderr ("Expected another commandline argument." ++ nl)%string],
        EXIT_FAILURE)).
  { unfold main. rewrite Hargs, (parse_args_app W [flag] pre _ Hpass), Hpre.
    unfold bind at 2. rewrite Hlone. reflexivity. }
  split; [exact Hlone|]. split; [exact Hmain|].
  rewrite Hmain. simpl fst. apply Forall_app. split.
  - pose proof (proj1 (parse_args_quiet W pre initial_vars)) as Hq.
    rewrite Hpre in Hq. exact Hq.
  - repeat constructor.
Qed.

Lemma missing_option_value_witness :
  @main test_double ["jsonnet"; "-e"; "--max-stack"; "5"; "-s"]
  = ([] ++ [Stderr ("Expected another commandline argument." ++ nl)%string],
     EXIT_FAILURE).
Proof.
  refine (proj1 (proj2 (missing_option_value test_double
            ["jsonnet"; "-e"; "--max-stack"; "5"; "-s"]
            ["-e"; "--max-stack"; "5"] "-s" []
            (set_max_stack 5 (set_filename_is_code true initial_vars))
            _ _ _ _))); reflexivity.
Defined.

(** ** The terminator *)

(** C4.  In a raw argument list whose first [--] follows [pre], the
    normalizer hands on [--] and every argument after it unchanged, behind
    the normalized [pre].  The option loop, when it meets [--], returns with
    the tokens after it appended, as they are and in order, to
    [remaining_args], every other variable as it was, and nothing written.
    So when the loop gets to the [--] of the normalized stream, the run of
    the loop over the stream is its run over what precedes [--], with the
    tokens after [--] appended to [remaining_args].  And over any stream,
    wherever [--] comes to stand, the tokens after it are never acted on as
    options: the outcome is that of the stream cut after [--], with those
    tokens appended to [remaining_args] if the loop returns (for a [--]
    that is the value of [--gc-growth-trigger] this needs that line 126
    does not read it as a number). *)
Theorem terminator_keeps_what_follows (W : World) (prog : string)
    (pre post : list string) (st : vars) :
  ~ In "--" pre ->
  let keep := fun s : vars =>
    {| filename := filename s;
       gc_growth_trigger := gc_growth_trigger s;
       max_stack := max_stack s;
       gc_min_objects := gc_min_objects s;
       filename_is_code := filename_is_code s;
       debug_ast := debug_ast s;
       remaining_args := remaining_args s ++ post |} in
  simplify_args (prog :: pre ++ "--" :: post)
    = simplify_args (prog :: pre) ++ "--" :: post
  /\ parse_args st ("--" :: post) = ([], Returns (keep st))
  /\ (forall evs st',
        cursor_passes (simplify_args (prog :: pre)) = true ->
        parse_args st (simplify_args (prog :: pre)) = (evs, Returns st') ->
        parse_args st (simplify_args (prog :: pre ++ "--" :: post))
        = (evs, Returns (keep st')))
  /\ (growth_trigger_rejected "--" = true ->
      parse_args st (simplify_args (prog :: pre ++ "--" :: post))
      = match parse_args st (simplify_args (prog :: pre) ++ ["--"]) with
        | (evs, Returns s) => (evs, Returns (keep s))
        | (evs, Exits status) => (evs, Exits status)
        end).
Proof.
  intros H keep.
  assert (E : simplify_args (prog :: pre ++ "--" :: post)
              = simplify_args (prog :: pre) ++ "--" :: post).
  { unfold simplify_args. simpl tl. apply simplify_loop_terminator. exact H. }
  split; [exact E|]. split; [reflexivity|]. split.
  - intros evs st' Hpass Hpre.
    rewrite E, (parse_args_app W ("--" :: post) _ st Hpass), Hpre.
    rewrite bind_returns, parse_args_terminator. simpl fst. simpl snd.
    rewrite app_nil_r. reflexivity.
  - intro Hrej. rewrite E.
    rewrite (parse_args_after_terminator W post Hrej).
    unfold with_positional.
    destruct (parse_args st (simplify_args (prog :: pre) ++ ["--"]))
      as [evs [s|status]]; reflexivity.
Qed.

Lemma terminator_keeps_what_follows_witness :
  simplify_args ["jsonnet"; "-es"; "5"; "--"; "-abc"; "--help"]
    = ["-e"; "-s"; "5"; "--"; "-abc"; "--help"]
  /\ @growth_trigger_rejected test_double "--" = true
  /\ @parse_args test_double initial_vars
       (simplify_args ["jsonnet"; "-es"; "5"; "--"; "-abc"; "--help"])
     = ([], Returns (@mk_vars test_double "-" 2 5 1000 true false
                               ["-abc"; "--help"]))
  /\ @parse_args test_double initial_vars
       (simplify_args ["jsonnet"; "--gc-growth-trigger"; "--"; "--help"])
     = ([Stderr ("ERROR: Invalid number " ++ dquote ++ "--" ++ dquote
                 ++ nl)%string;
         Stderr usage_text], Exits EXIT_FAILURE).
Proof.
  assert (Hpre : ~ In "--" ["-es"; "5"]).
  { simpl. intros [H|[H|[]]]; discriminate H. }
  assert (Hnone : ~ In "--" ["--gc-growth-trigger"]).
  { simpl. intros [H|[]]. discriminate H. }
  pose proof (terminator_keeps_what_follows test_double "jsonnet"
                ["-es"; "5"] ["-abc"; "--help"] initial_vars Hpre)
    as [H1 [_ [H3 _]]].
  pose proof (terminator_keeps_what_follows test_double "jsonnet"
                ["--gc-growth-trigger"] ["--help"] initial_vars Hnone)
    as [_ [_ [_ H4]]].
  split; [exact H1|]. split; [reflexivity|]. split.
  - exact (H3 [] (set_max_stack 5 (set_filename_is_code true initial_vars))
              eq_refl eq_refl).
  - exact (H4 eq_refl).
Defined.

(** ** The positional arguments *)

Lemma check_filename_cases (W : World) (st : vars) :
  check_filename st =
    match remaining_args st with
    | [] =>
        if filename_is_code st then
          ([Stderr ("ERROR: Must give filename when using -e, --exec"
                    ++ nl ++ nl)%string;
            Stderr usage_text], Exits EXIT_FAILURE)
        else ([], Returns st)
    | [f] => ([], Returns (set_filename f st))
    | f :: _ :: _ =>
        ([Stderr ("ERROR: Filename already specified as " ++ dquote ++ f
                  ++ dquote ++ nl ++ nl)%string;
          Stderr usage_text], Exits EXIT_FAILURE)
    end.
Proof.
  unfold check_filename.
  destruct (remaining_args st) as [|f [|g rest]] eqn:E; simpl.
  - rewrite E. simpl. destruct (filename_is_code st); reflexivity.
  - rewrite E. simpl. rewrite andb_false_r. reflexivity.
  - rewrite E. reflexivity.
Qed.

Lemma quiet_not_pipeline (W : World) (evs : list event) :
  Forall (fun e => is_pipeline_event e = false) evs ->
  ~ Exists (fun e => is_pipeline_event e = true) evs.
Proof.
  intros Hq Hex. apply Exists_exists in Hex. destruct Hex as [e [Hin He]].
  rewrite Forall_forall in Hq. rewrite (Hq e Hin) in He. discriminate He.
Qed.

(** C6.  Once the option loop has come to the end of the token stream:
    with two or more positional arguments the process writes "Filename
    already specified" with the usage text to standard error and ends with
    failure status; with none and [filename_is_code] set it ends with
    failure status likewise; with none and [filename_is_code] unset the
    filename is still ["-"] and the input is read from the standard input;
    and the pipeline is only ever reached with at most one positional
    argument. *)
Theorem positional_arguments_checked (W : World) (argv : list string)
    (evs : list event) (st : vars) :
  parse_args initial_vars (simplify_args argv) = (evs, Returns st) ->
  ((2 <= length (remaining_args st))%nat ->
   main argv
   = (evs ++ [Stderr ("ERROR: Filename already specified as " ++ dquote
                      ++ hd EmptyString (remaining_args st) ++ dquote
                      ++ nl ++ nl)%string;
              Stderr usage_text], EXIT_FAILURE))
  /\ (remaining_args st = [] -> filename_is_code st = true ->
      main argv
      = (evs ++ [Stderr ("ERROR: Must give filename when using -e, --exec"
                         ++ nl ++ nl)%string;
                 Stderr usage_text], EXIT_FAILURE))
  /\ (remaining_args st = [] -> filename_is_code st = false ->
      filename st = "-"
      /\ read_input st = ([Read_stdin], Returns ("<stdin>", stdin_contents))
      /\ main argv
         = (evs ++ fst (finish (pipeline st)), snd (finish (pipeline st))))
  /\ (forall f, remaining_args st = [f] ->
      main argv
      = (evs ++ fst (finish (pipeline (set_filename f st))),
         snd (finish (pipeline (set_filename f st)))))
  /\ (Exists (fun e => is_pipeline_event e = true) (fst (main argv)) ->
      (length (remaining_args st) <= 1)%nat).
Proof.
  intro Hparse.
  pose proof (parse_args_quiet W (simplify_args argv) initial_vars)
    as [Hquiet Hname].
  rewrite Hparse in Hquiet, Hname. simpl in Hquiet.
  specialize (Hname st eq_refl). simpl in Hname.
  assert (Hmain : main argv
            = (evs ++ fst (finish (st' <- check_filename st ;; pipeline st')),
               snd (finish (st' <- check_filename st ;; pipeline st')))).
  { unfold main. rewrite Hparse. apply finish_bind_returns. }
  assert (Hmany : (2 <= length (remaining_args st))%nat ->
            main argv
            = (evs ++ [Stderr ("ERROR: Filename already specified as "
                               ++ dquote ++ hd EmptyString (remaining_args st)
                               ++ dquote ++ nl ++ nl)%string;
                       Stderr usage_text], EXIT_FAILURE)).
  { intro Hlen. rewrite Hmain, check_filename_cases.
    destruct (remaining_args st) as [|f [|g rest]];
      [simpl in Hlen; lia | simpl in Hlen; lia | reflexivity]. }
  split; [exact Hmany|]. split; [|split; [|split]].
  - intros Hnone Hcode. rewrite Hmain, check_filename_cases, Hnone, Hcode.
    reflexivity.
  - intros Hnone Hcode. split; [exact Hname|]. split.
    + unfold read_input. rewrite Hcode, Hname. reflexivity.
    + rewrite Hmain, check_filename_cases, Hnone, Hcode.
      change ([], Returns st) with (ret st). rewrite bind_ret_l. reflexivity.
  - intros f Hone. rewrite Hmain, check_filename_cases, Hone.
    change ([], Returns (set_filename f st)) with (ret (set_filename f st)).
    rewrite bind_ret_l. reflexivity.
  - intro Hex.
    destruct (Nat.le_gt_cases (length (remaining_args st)) 1) as [Hle|Hgt];
      [exact Hle|].
    exfalso. rewrite (Hmany Hgt) in Hex. simpl fst in Hex.
    revert Hex. apply quiet_not_pipeline. apply Forall_app.
    split; [exact Hquiet | repeat constructor].
Qed.

Lemma positional_arguments_checked_witness :
  @main test_double ["jsonnet"; "foo.jsonnet"; "-e"; "bar.jsonnet"]
  = ([] ++ [Stderr ("ERROR: Filename already specified as " ++ dquote
                    ++ "foo.jsonnet" ++ dquote ++ nl ++ nl)%string;
            Stderr usage_text], EXIT_FAILURE).
Proof.
  refine (proj1 (positional_arguments_checked test_double
            ["jsonnet"; "foo.jsonnet"; "-e"; "bar.jsonnet"] []
            (push_remaining ["bar.jsonnet"]
               (set_filename_is_code true
                  (push_remaining ["foo.jsonnet"] initial_vars)))
            _) _).
  - reflexivity.
  - simpl. lia.
Defined.

(** ** The pipeline *)

Lemma read_input_events (W : World) (st : vars) (evs : list event)
    (src : string * string) :
  read_input st = (evs, Returns src) ->
  Forall (fun e => calls_analysis_or_vm e = false) evs.
Proof.
  unfold read_input.
  destruct (filename_is_code st).
  - intro H. injection H as H _. subst evs. constructor.
  - destruct (String.eqb (filename st) "-").
    + intro H. injection H as H _. subst evs. repeat constructor.
    + destruct (read_file (c_str (filename st))).
      * intro H. injection H as H _. subst evs. repeat constructor.
      * intro H. discriminate H.
Qed.

Lemma streams_are_no_calls (W : World) (evs : list event) :
  Forall (fun e => is_pipeline_event e = false) evs ->
  Forall (fun e => calls_analysis_or_vm e = false) evs.
Proof.
  apply Forall_impl. intros e. destruct e; simpl; intro H;
    (reflexivity || discriminate H).
Qed.

(** C8.  With [debug_ast] set, once the input is there and the parser has
    given an expression, the driver calls the unparser, writes its text and
    a newline to standard output and ends with success status; neither the
    static analysis nor the execution is called, in the pipeline or at any
    point of the run before it. *)
Theorem debug_ast_only_unparses (W : World) (argv : list string)
    (evs0 evs1 evs2 : list event) (st0 st : vars)
    (display_name input : string) (expr : AST) :
  parse_args initial_vars (simplify_args argv) = (evs0, Returns st0) ->
  check_filename st0 = (evs1, Returns st) ->
  debug_ast st = true ->
  read_input st = (evs2, Returns (display_name, input)) ->
  jsonnet_parse display_name (c_str input) = inr expr ->
  finish (pipeline st)
    = (evs2 ++ [Call_parse display_name (c_str input);
                Call_unparse expr;
                Stdout (jsonnet_unparse_jsonnet expr ++ nl)%string],
       EXIT_SUCCESS)
  /\ main argv
     = (evs0 ++ evs1 ++ evs2
        ++ [Call_parse display_name (c_str input);
            Call_unparse expr;
            Stdout (jsonnet_unparse_jsonnet expr ++ nl)%string],
        EXIT_SUCCESS)
  /\ Forall (fun e => calls_analysis_or_vm e = false) (fst (main argv)).
Proof.
  intros Hparse Hcheck Hdebug Hread Hast.
  assert (Hpipe : pipeline st
            = (evs2 ++ [Call_parse display_name (c_str input);
                        Call_unparse expr;
                        Stdout (jsonnet_unparse_jsonnet expr ++ nl)%string],
               Returns tt)).
  { unfold pipeline. rewrite Hread. unfold bind at 1. simpl fst. simpl snd.
    unfold run_pipeline. rewrite Hast, Hdebug. reflexivity. }
  assert (Hmain : main argv
            = (evs0 ++ evs1 ++ evs2
               ++ [Call_parse display_name (c_str input);
                   Call_unparse expr;
                   Stdout (jsonnet_unparse_jsonnet expr ++ nl)%string],
               EXIT_SUCCESS)).
  { unfold main. rewrite Hparse, finish_bind_returns, Hcheck,
      finish_bind_returns, Hpipe. reflexivity. }
  split; [rewrite Hpipe; reflexivity|]. split; [exact Hmain|].
  rewrite Hmain. simpl fst. repeat (apply Forall_app; split).
  - apply streams_are_no_calls.
    pose proof (proj1 (parse_args_quiet W (simplify_args argv) initial_vars))
      as Hq.
    rewrite Hparse in Hq. exact Hq.
  - rewrite check_filename_cases in Hcheck.
    destruct (remaining_args st0) as [|f [|g rest]];
      [destruct (filename_is_code st0)| |];
      try discriminate Hcheck; injection Hcheck as Hc _; subst evs1;
      constructor.
  - exact (read_input_events W st evs2 _ Hread).
  - repeat constructor.
Qed.

Lemma debug_ast_only_unparses_witness :
  @main test_double ["jsonnet"; "--debug-ast"; "-e"; "{}"]
  = ([] ++ [] ++ []
     ++ [Call_parse "<cmdline>" "{}"; @Call_unparse test_double "{}";
         Stdout ("{}" ++ nl)%string],
     EXIT_SUCCESS).
Proof.
  refine (proj1 (proj2 (debug_ast_only_unparses test_double
            ["jsonnet"; "--debug-ast"; "-e"; "{}"] [] [] []
            (push_remaining ["{}"]
               (set_filename_is_code true (set_debug_ast true initial_vars)))
            (set_filename "{}"
               (push_remaining ["{}"]
                  (set_filename_is_code true
                     (set_debug_ast true initial_vars))))
            "<cmdline>" "{}" "{}" _ _ _ _ _))); reflexivity.
Defined.

(** ** The stack trace of a [RuntimeError] *)







(** ** The numeric options *)

Lemma bind_nil_returns (W : World) (A B : Type) (a : A) (f : A -> proc B) :
  bind ([], Returns a) f = f a.
Proof. exact (bind_ret_l W A B a f). Qed.

(** What the [-s] / [--max-stack] branch does with the token after the
    flag: a token [strtol_check] refuses, or a value below 1, ends the
    process with failure status; any other value is stored, reduced modulo
    2^32 by the assignment to the [unsigned max_stack]. *)
Lemma max_stack_branch (W : World) (st : vars) (flag tok : string)
    (rest : list string) :
  flag = "-s" \/ flag = "--max-stack" ->
  let arg := c_str tok in
  let l := fst (CLib.strtol arg) in
  parse_args st (flag :: tok :: rest) =
    if negb (String.eqb (snd (CLib.strtol arg)) "") || String.eqb arg "" then
      ([Stderr ("ERROR: Invalid integer " ++ dquote ++ arg ++ dquote
                ++ nl ++ nl)%string;
        Stderr usage_text], Exits EXIT_FAILURE)
    else if l <? 1 then
      ([Stderr ("ERROR: Invalid --max-stack value " ++ string_of_Z l
                ++ nl ++ nl)%string;
        Stderr usage_text], Exits EXIT_FAILURE)
    else parse_args (set_max_stack (l mod 2 ^ 32) st) rest.
Proof.
  intro Hflag. cbv zeta. rewrite (parse_args_max_stack W st flag _ Hflag).
  unfold next_arg. rewrite strtol_check_cases. cbv zeta.
  destruct (negb (String.eqb (snd (CLib.strtol (c_str tok))) "")
            || String.eqb (c_str tok) ""); [reflexivity|].
  rewrite bind_nil_returns.
  destruct (fst (CLib.strtol (c_str tok)) <? 1); reflexivity.
Qed.

(** A value from 1 to 4294967295 is stored as it is. *)
Lemma to_unsigned_small (l : Z) :
  1 <= l < 2 ^ 32 -> CLib.to_unsigned l = l.
Proof. intro H. unfold CLib.to_unsigned, CLib.UINT_MODULUS. apply Z.mod_small. lia. Qed.

(** The tokens the specification lists for [--max-stack]. *)
Lemma max_stack_examples :
  snd (@main test_double ["jsonnet"; "--max-stack"; "0"]) = EXIT_FAILURE
  /\ snd (@main test_double ["jsonnet"; "--max-stack"; "-1"]) = EXIT_FAILURE
  /\ snd (@main test_double ["jsonnet"; "--max-stack"; "abc"]) = EXIT_FAILURE
  /\ @main test_double ["jsonnet"; "--max-stack"; "5"]
     = ([Read_stdin; Call_parse "<stdin>" "{}";
         @Call_static_analysis test_double "{}";
         @Call_vm_execute test_double "{}" 5 1000 2;
         Stdout ("{}" ++ nl)%string], EXIT_SUCCESS).
Proof. repeat split; reflexivity. Qed.

(** C3, where the code departs from it.  The token [4294967296] is a
    well-formed integer and at least 1, so the branch accepts it; the
    assignment of the [long] to the [unsigned max_stack] leaves 0, and 0 is
    what the execution is called with. *)
Theorem max_stack_wraps_to_zero (W : World) (st : vars) (rest : list string) :
  CLib.strtol "4294967296" = (4294967296, "")
  /\ parse_args st ("--max-stack" :: "4294967296" :: rest)
     = parse_args (set_max_stack 0 st) rest
  /\ @main test_double ["jsonnet"; "--max-stack"; "4294967296"]
     = ([Read_stdin; Call_parse "<stdin>" "{}";
         @Call_static_analysis test_double "{}";
         @Call_vm_execute test_double "{}" 0 1000 2;
         Stdout ("{}" ++ nl)%string], EXIT_SUCCESS).
Proof.
  split; [reflexivity|]. split; [|reflexivity].
  rewrite (max_stack_branch W st "--max-stack" "4294967296" rest
             (or_intror eq_refl)).
  reflexivity.
Qed.

(** What the [--gc-min-objects] branch does with the token after the flag.
    The value tested against 1 is not the [long] of [strtol_check] but that
    value after its conversion to [unsigned]: the token is refused only if
    [strtol_check] refuses it or its value is a multiple of 2^32. *)
Lemma gc_min_objects_branch (W : World) (st : vars) (tok : string)
    (rest : list string) :
  let arg := c_str tok in
  let u := fst (CLib.strtol arg) mod 2 ^ 32 in
  parse_args st ("--gc-min-objects" :: tok :: rest) =
    if negb (String.eqb (snd (CLib.strtol arg)) "") || String.eqb arg "" then
      ([Stderr ("ERROR: Invalid integer " ++ dquote ++ arg ++ dquote
                ++ nl ++ nl)%string;
        Stderr usage_text], Exits EXIT_FAILURE)
    else if u =? 0 then
      ([Stderr ("ERROR: Invalid --gc-min-objects value " ++ string_of_Z u
                ++ nl ++ nl)%string;
        Stderr usage_text], Exits EXIT_FAILURE)
    else parse_args (set_gc_min_objects u st) rest.
Proof.
  cbv zeta. rewrite parse_args_gc_min_objects.
  unfold next_arg. rewrite strtol_check_cases. cbv zeta.
  destruct (negb (String.eqb (snd (CLib.strtol (c_str tok))) "")
            || String.eqb (c_str tok) ""); [reflexivity|].
  rewrite bind_nil_returns. cbv zeta.
  change (gc_min_objects
            (set_gc_min_objects
               (CLib.to_unsigned (fst (CLib.strtol (c_str tok)))) st))
    with (fst (CLib.strtol (c_str tok)) mod 2 ^ 32).
  pose proof (Z.mod_pos_bound (fst (CLib.strtol (c_str tok))) (2 ^ 32)
                ltac:(lia)) as Hu.
  set (u := fst (CLib.strtol (c_str tok)) mod 2 ^ 32) in *.
  destruct (Z.ltb_spec u 1); destruct (Z.eqb_spec u 0); try lia;
    [reflexivity|].
  unfold CLib.to_unsigned, CLib.UINT_MODULUS.
  rewrite (Z.mod_small u (2 ^ 32)) by lia.
  reflexivity.
Qed.

(** C1, where the code departs from it.  The token [-1] has a value below
    1, and [--max-stack] refuses it; [--gc-min-objects] accepts it and sets
    the field to 4294967295, which is what the execution is called with. *)
Theorem gc_min_objects_accepts_negative (W : World) (st : vars)
    (rest : list string) :
  CLib.strtol "-1" = (-1, "")
  /\ parse_args st ("--gc-min-objects" :: "-1" :: rest)
     = parse_args (set_gc_min_objects 4294967295 st) rest
  /\ parse_args st ("--max-stack" :: "-1" :: rest)
     = ([Stderr ("ERROR: Invalid --max-stack value -1" ++ nl ++ nl)%string;
         Stderr usage_text], Exits EXIT_FAILURE)
  /\ @main test_double ["jsonnet"; "--gc-min-objects"; "-1"]
     = ([Read_stdin; Call_parse "<stdin>" "{}";
         @Call_static_analysis test_double "{}";
         @Call_vm_execute test_double "{}" 500 4294967295 2;
         Stdout ("{}" ++ nl)%string], EXIT_SUCCESS).
Proof.
  split; [reflexivity|].
  split; [|split; [|reflexivity]].
  - rewrite (gc_min_objects_branch W st "-1" rest). reflexivity.
  - rewrite (max_stack_branch W st "--max-stack" "-1" rest
               (or_intror eq_refl)).
    reflexivity.
Qed.

(** What the [--gc-growth-trigger] branch does with the token after the
    flag, in terms of what is read where the token was. *)
Lemma gc_growth_trigger_branch (W : World) (st : vars) (tok : string)
    (rest : list string) :
  let arg := c_str (released tok) in
  let v := fst (strtod arg) in
  let ep := snd (strtod arg) in
  parse_args st ("--gc-growth-trigger" :: tok :: rest) =
    if negb (Ascii.eqb (deref ep) NUL) || Ascii.eqb (deref arg) NUL then
      ([Stderr ("ERROR: Invalid number " ++ dquote ++ arg ++ dquote
                ++ nl)%string;
        Stderr usage_text], Exits EXIT_FAILURE)
    else if double_lt_zero v then
      ([Stderr ("ERROR: Invalid --gc-growth-trigger " ++ dquote ++ arg
                ++ dquote ++ nl ++ nl)%string;
        Stderr usage_text], Exits EXIT_FAILURE)
    else parse_args (set_gc_growth_trigger v st) rest.
Proof.
  cbv zeta. rewrite parse_args_gc_growth_trigger. unfold next_arg. cbv zeta.
  destruct (strtod (c_str (released tok))) as [v ep]. simpl fst. simpl snd.
  destruct (negb (Ascii.eqb (deref ep) NUL)
            || Ascii.eqb (deref (c_str (released tok))) NUL); [reflexivity|].
  simpl gc_growth_trigger. destruct (double_lt_zero v); reflexivity.
Qed.

(** C7, where the code departs from it.  The branch reads the token through
    a pointer into a [std::string] that no longer exists.  Whatever [strtod]
    is, when the first character found there is a NUL the token is refused
    as an invalid number, a well-formed non-negative one like any other. *)
Theorem gc_growth_trigger_reads_released_buffer (W : World) (st : vars)
    (tok : string) (rest : list string) :
  c_str (released tok) = "" ->
  parse_args st ("--gc-growth-trigger" :: tok :: rest)
  = ([Stderr ("ERROR: Invalid number " ++ dquote ++ dquote ++ nl)%string;
      Stderr usage_text], Exits EXIT_FAILURE).
Proof.
  intro H. rewrite gc_growth_trigger_branch. cbv zeta. rewrite H.
  change (Ascii.eqb (deref "") NUL) with true. rewrite orb_true_r.
  reflexivity.
Qed.

Lemma gc_growth_trigger_reads_released_buffer_witness :
  @parse_args cleared_storage initial_vars ["--gc-growth-trigger"; "2.5"]
  = ([Stderr ("ERROR: Invalid number " ++ dquote ++ dquote ++ nl)%string;
      Stderr usage_text], Exits EXIT_FAILURE).
Proof.
  apply (gc_growth_trigger_reads_released_buffer cleared_storage
           initial_vars "2.5" []).
  reflexivity.
Defined.

(** * Further properties *)

(** ** How the option loop ends *)

Lemma usage_failure_outcome (W : World) (I : vars -> Prop) (text : string) :
  loop_outcome I ([Stderr text; Stderr usage_text], Exits EXIT_FAILURE).
Proof.
  right. split; [reflexivity|]. split; [discriminate|].
  repeat constructor.
Qed.

(** Every way through the loop keeps a property of the variables that the
    assignments of the branches keep, and writes only when the process
    ends. *)
Lemma parse_args_outcome (W : World) (I : vars -> Prop) :
  (forall st v, 0 <= v < 2 ^ 32 -> I st -> I (set_max_stack v st)) ->
  (forall st v, 1 <= v < 2 ^ 32 -> I st -> I (set_gc_min_objects v st)) ->
  (forall st v, double_lt_zero v = false -> I st ->
                I (set_gc_growth_trigger v st)) ->
  (forall st, I st -> I (set_filename_is_code true st)) ->
  (forall st, I st -> I (set_debug_ast true st)) ->
  (forall st more, I st -> I (push_remaining more st)) ->
  forall (args : list string) (st : vars),
    I st -> loop_outcome I (parse_args st args).
Proof.
  intros Hms Hgmo Hggt Hcode Hdebug Hpush args.
  assert (H : forall n args, (length args <= n)%nat -> forall st,
             I st -> loop_outcome I (parse_args st args)).
  { clear args. induction n as [|n IH]; intros args Hlen st HI.
    - destruct args as [|t rest]; [|simpl in Hlen; lia].
      simpl. split; [reflexivity | exact HI].
    - destruct args as [|t rest].
      { simpl. split; [reflexivity | exact HI]. }
      simpl in Hlen.
      destruct rest as [|v rest'].
      { (* the last token *)
        destruct (takes_value t) eqn:Ev.
        - rewrite (parse_args_lone_flag W st t Ev).
          right. split; [reflexivity|]. split; [discriminate|].
          repeat constructor.
        - unfold takes_value in Ev. rewrite (parse_args_cons W st t).
          destruct (String.eqb t "-h" || String.eqb t "--help").
          { left. split; reflexivity. }
          destruct (String.eqb t "-s" || String.eqb t "--max-stack");
            [discriminate Ev|].
          destruct (String.eqb t "--gc-min-objects"); [discriminate Ev|].
          destruct (String.eqb t "--gc-growth-trigger"); [discriminate Ev|].
          destruct (String.eqb t "-e" || String.eqb t "--exec").
          { simpl. split; [reflexivity | apply Hcode; exact HI]. }
          destruct (String.eqb t "--debug-ast").
          { simpl. split; [reflexivity | apply Hdebug; exact HI]. }
          destruct (String.eqb t "--").
          { simpl. split; [reflexivity | apply Hpush; exact HI]. }
          simpl. split; [reflexivity | apply Hpush; exact HI]. }
      assert (Hl : (length rest' <= n)%nat) by (simpl in Hlen; lia).
      assert (Hl' : (length (v :: rest') <= n)%nat)
        by (simpl; simpl in Hlen; lia).
      destruct (String.eqb t "-h" || String.eqb t "--help") eqn:Eh.
      { rewrite (parse_args_cons W st t), Eh. left. split; reflexivity. }
      destruct (String.eqb t "-s" || String.eqb t "--max-stack") eqn:Es.
      { assert (Hflag : t = "-s" \/ t = "--max-stack").
        { apply orb_prop in Es. destruct Es as [E|E];
            apply String.eqb_eq in E; [left | right]; exact E. }
        rewrite (max_stack_branch W st t v rest' Hflag). cbv zeta.
        destruct (negb (String.eqb (snd (CLib.strtol (c_str v))) "")
                  || String.eqb (c_str v) "");
          [apply usage_failure_outcome|].
        destruct (fst (CLib.strtol (c_str v)) <? 1);
          [apply usage_failure_outcome|].
        apply (IH rest' Hl). apply Hms; [|exact HI].
        apply Z.mod_pos_bound. lia. }
      destruct (String.eqb_spec t "--gc-min-objects") as [Eg|Eg].
      { subst t. rewrite (gc_min_objects_branch W st v rest'). cbv zeta.
        destruct (negb (String.eqb (snd (CLib.strtol (c_str v))) "")
                  || String.eqb (c_str v) "");
          [apply usage_failure_outcome|].
        destruct (Z.eqb_spec (fst (CLib.strtol (c_str v)) mod 2 ^ 32) 0)
          as [E0|E0]; [apply usage_failure_outcome|].
        apply (IH rest' Hl). apply Hgmo; [|exact HI].
        pose proof (Z.mod_pos_bound (fst (CLib.strtol (c_str v))) (2 ^ 32)
                      ltac:(lia)).
        lia. }
      destruct (String.eqb_spec t "--gc-growth-trigger") as [Et|Et].
      { subst t. rewrite (gc_growth_trigger_branch W st v rest'). cbv zeta.
        destruct (negb (Ascii.eqb (deref (snd (strtod (c_str (released v)))))
                                  NUL)
                  || Ascii.eqb (deref (c_str (released v))) NUL);
          [apply usage_failure_outcome|].
        destruct (double_lt_zero (fst (strtod (c_str (released v))))) eqn:El;
          [apply usage_failure_outcome|].
        apply (IH rest' Hl). apply Hggt; [exact El | exact HI]. }
      rewrite (parse_args_cons W st t), Eh, Es.
      apply String.eqb_neq in Eg, Et. rewrite Eg, Et.
      destruct (String.eqb t "-e" || String.eqb t "--exec").
      { apply (IH (v :: rest') Hl'). apply Hcode. exact HI. }
      destruct (String.eqb t "--debug-ast").
      { apply (IH (v :: rest') Hl'). apply Hdebug. exact HI. }
      destruct (String.eqb t "--").
      { simpl. split; [reflexivity | apply Hpush; exact HI]. }
      apply (IH (v :: rest') Hl'). apply Hpush. exact HI. }
  intros st HI. apply (H (length args)); [lia | exact HI].
Qed.

(** ** Exit status and output streams *)

Lemma trace_loop_stderr (W : World) (sz : Z)
    (frames : list (frame LocationRange)) :
  forall i, Forall (fun e => is_stdout e = false) (trace_loop sz i frames).
Proof.
  induction frames as [|f rest IH]; intro i; [constructor|].
  simpl. apply Forall_app. split; [|apply IH].
  destruct ((max_above <=? i) && (i <? sz - max_below));
    [destruct (i =? max_above)|]; repeat constructor.
Qed.

Lemma catch_RuntimeError_events (W : World) (A : Type)
    (e : RuntimeError LocationRange) :
  @catch_RuntimeError W A e
  = (Stderr ("RUNTIME ERROR: " ++ msg e ++ nl)%string
       :: print_trace (stackTrace e),
     Exits EXIT_FAILURE).
Proof.
  unfold catch_RuntimeError, cerr, emit, exit, bind.
  rewrite app_nil_r. reflexivity.
Qed.

Lemma run_pipeline_discipline (W : World) (st : vars)
    (display_name input : string) :
  stream_discipline (finish (run_pipeline st display_name input)).
Proof.
  unfold run_pipeline.
  destruct (jsonnet_parse display_name (c_str input)) as [e|expr].
  { right. simpl. split; [reflexivity|]. split; [all_events | find_event]. }
  destruct (debug_ast st).
  { left. simpl. split; [reflexivity|]. split; [repeat constructor|].
    exists [Call_parse display_name (c_str input); Call_unparse expr].
    eexists. split; [reflexivity | repeat constructor]. }
  destruct (jsonnet_static_analysis expr) as [e|expr'].
  { right. simpl. split; [reflexivity|]. split; [all_events | find_event]. }
  destruct (jsonnet_vm_execute expr' (max_stack st) (gc_min_objects st)
                               (gc_growth_trigger st)) as [e|text] eqn:Evm.
  - right. rewrite catch_RuntimeError_events. unfold emit, bind. simpl.
    split; [reflexivity|]. split.
    + repeat (constructor; [reflexivity|]). apply trace_loop_stderr.
    + do 3 apply Exists_cons_tl. apply Exists_cons_hd. reflexivity.
  - left. simpl. split; [reflexivity|]. split; [repeat constructor|].
    exists [Call_parse display_name (c_str input);
            Call_static_analysis expr;
            Call_vm_execute expr' (max_stack st) (gc_min_objects st)
                            (gc_growth_trigger st)].
    eexists. split; [reflexivity | repeat constructor].
Qed.

(** Events that are no output in front of a run change nothing to how it
    ends. *)
Lemma stream_discipline_prefix (W : World) (pre : list event)
    (r : list event * Z) :
  Forall (fun e => is_stdout e = false) pre ->
  Forall (fun e => is_diagnostic e = false) pre ->
  stream_discipline r -> stream_discipline (pre ++ fst r, snd r).
Proof.
  intros Hout Hdiag [[Hs [Hd [p [text [Hp Hq]]]]] | [Hs [Ho He]]].
  - left. simpl. split; [exact Hs|].
    split; [apply Forall_app; split; assumption|].
    exists (pre ++ p), text. split.
    + rewrite Hp, app_assoc. reflexivity.
    + apply Forall_app. split; assumption.
  - right. simpl. split; [exact Hs|].
    split; [apply Forall_app; split; assumption|].
    apply Exists_app. right. exact He.
Qed.

Lemma pipeline_discipline (W : World) (st : vars) :
  stream_discipline (finish (pipeline st)).
Proof.
  unfold pipeline, read_input.
  destruct (filename_is_code st).
  { rewrite bind_ret_l. apply run_pipeline_discipline. }
  destruct (String.eqb (filename st) "-").
  { unfold emit, ret. simpl bind at 2.
    rewrite finish_bind_returns.
    apply (stream_discipline_prefix W [Read_stdin]);
      [repeat constructor | repeat constructor
       | apply run_pipeline_discipline]. }
  destruct (read_file (c_str (filename st))) as [contents|].
  - unfold emit, ret. simpl bind at 2.
    rewrite finish_bind_returns.
    apply (stream_discipline_prefix W [Read_file (c_str (filename st))]);
      [repeat constructor | repeat constructor
       | apply run_pipeline_discipline].
  - right. simpl. split; [reflexivity|]. split; [all_events | find_event].
Qed.

(** X1.  However the arguments are, a run ends in one of two ways: with
    success status, nothing written to standard error and exactly one text
    written to standard output, as the last thing it does; or with failure
    status, nothing written to standard output and something written to
    standard error. *)
Theorem exit_status_and_streams (W : World) (argv : list string) :
  (snd (main argv) = EXIT_SUCCESS
   /\ Forall (fun e => is_diagnostic e = false) (fst (main argv))
   /\ exists pre text,
        fst (main argv) = pre ++ [Stdout text]
        /\ Forall (fun e => is_stdout e = false) pre)
  \/ (snd (main argv) = EXIT_FAILURE
      /\ Forall (fun e => is_stdout e = false) (fst (main argv))
      /\ Exists (fun e => is_diagnostic e = true) (fst (main argv))).
Proof.
  change (stream_discipline (main argv)). unfold main.
  pose proof (parse_args_outcome W (fun _ => True)
                ltac:(auto) ltac:(auto) ltac:(auto) ltac:(auto) ltac:(auto)
                ltac:(auto) (simplify_args argv) initial_vars I) as Hloop.
  destruct (parse_args initial_vars (simplify_args argv))
    as [evs [st|status]]; simpl in Hloop.
  - destruct Hloop as [Hevs _]. subst evs. rewrite bind_nil_returns.
    rewrite check_filename_cases.
    destruct (remaining_args st) as [|f [|g rest]].
    + destruct (filename_is_code st).
      * right. simpl. split; [reflexivity|].
        split; [all_events | find_event].
      * rewrite bind_nil_returns. apply pipeline_discipline.
    + rewrite bind_nil_returns. apply pipeline_discipline.
    + right. simpl. split; [reflexivity|]. split; [all_events | find_event].
  - destruct Hloop as [[Hs Hevs] | [Hs [Hne Hd]]]; subst status.
    + subst evs. left. simpl. split; [reflexivity|].
      split; [repeat constructor|].
      exists [], usage_text. split; [reflexivity | constructor].
    + right. simpl. split; [reflexivity|]. split.
      * revert Hd. apply Forall_impl. intros e He.
        destruct e; simpl in *; (reflexivity || discriminate He).
      * destruct evs as [|e evs]; [contradiction Hne; reflexivity|].
        apply Exists_cons_hd. inversion Hd; assumption.
Qed.

(** ** What execution is called with *)

Lemma trace_loop_no_call (W : World) (sz : Z)
    (frames : list (frame LocationRange)) (e : event) :
  forall i, In e (trace_loop sz i frames) -> is_diagnostic e = true.
Proof.
  induction frames as [|f rest IH]; intros i Hin; [destruct Hin|].
  simpl in Hin. apply in_app_or in Hin. destruct Hin as [Hin|Hin].
  - destruct ((max_above <=? i) && (i <? sz - max_below));
      [destruct (i =? max_above)|]; simpl in Hin;
      repeat (destruct Hin as [Hin|Hin]; [subst e; reflexivity|]);
      destruct Hin.
  - exact (IH (i + 1) Hin).
Qed.

(** The only call of the execution in the pipeline has the limits of the
    variables. *)
Lemma pipeline_vm_call (W : World) (st : vars) (expr : AST) (ms gmo : Z)
    (ggt : double) :
  In (Call_vm_execute expr ms gmo ggt) (fst (finish (pipeline st))) ->
  ms = max_stack st /\ gmo = gc_min_objects st /\ ggt = gc_growth_trigger st.
Proof.
  assert (Hrun : forall display_name input,
            In (Call_vm_execute expr ms gmo ggt)
               (fst (finish (run_pipeline st display_name input))) ->
            ms = max_stack st /\ gmo = gc_min_objects st
            /\ ggt = gc_growth_trigger st).
  { intros display_name input. unfold run_pipeline.
    destruct (jsonnet_parse display_name (c_str input)) as [e|ast].
    { simpl. intros [H|[H|[]]]; discriminate H. }
    destruct (debug_ast st).
    { simpl. intros [H|[H|[H|[]]]]; discriminate H. }
    destruct (jsonnet_static_analysis ast) as [e|ast'].
    { simpl. intros [H|[H|[H|[]]]]; discriminate H. }
    destruct (jsonnet_vm_execute ast' (max_stack st) (gc_min_objects st)
                                 (gc_growth_trigger st)) as [e|text].
    - rewrite catch_RuntimeError_events. unfold emit, bind. simpl.
      intros [H|[H|[H|[H|H]]]]; try discriminate H.
      + injection H as _ H1 H2 H3. subst. repeat split.
      + pose proof (trace_loop_no_call W _ _ _ _ H) as Hd.
        discriminate Hd.
    - simpl. intros [H|[H|[H|[H|[]]]]]; try discriminate H.
      injection H as _ H1 H2 H3. subst. repeat split. }
  unfold pipeline, read_input.
  destruct (filename_is_code st).
  { rewrite bind_ret_l. apply Hrun. }
  destruct (String.eqb (filename st) "-").
  { unfold emit, ret. simpl bind at 2. rewrite finish_bind_returns.
    simpl fst. intros [H|H]; [discriminate H | exact (Hrun _ _ H)]. }
  destruct (read_file (c_str (filename st))) as [contents|].
  - unfold emit, ret. simpl bind at 2. rewrite finish_bind_returns.
    simpl fst. intros [H|H]; [discriminate H | exact (Hrun _ _ H)].
  - simpl. intros [H|[]]. discriminate H.
Qed.

Lemma diagnostic_is_no_call (W : World) (evs : list event) (expr : AST)
    (ms gmo : Z) (ggt : double) :
  Forall (fun e => is_diagnostic e = true) evs ->
  ~ In (Call_vm_execute expr ms gmo ggt) evs.
Proof.
  intros Hd Hin. rewrite Forall_forall in Hd. specialize (Hd _ Hin).
  discriminate Hd.
Qed.

(** X2.  Whenever the execution is called, [max_stack] is a value of an
    [unsigned], [gc_min_objects] is one that is at least 1, and the growth
    trigger is the default or a number that the test [< 0] of line 134 let
    through. *)
Theorem vm_execute_limits (W : World) (argv : list string) (expr : AST)
    (ms gmo : Z) (ggt : double) :
  In (Call_vm_execute expr ms gmo ggt) (fst (main argv)) ->
  0 <= ms < 2 ^ 32
  /\ 1 <= gmo < 2 ^ 32
  /\ (ggt = double_two \/ double_lt_zero ggt = false).
Proof.
  unfold main.
  assert (Hinit : limits_in_range initial_vars).
  { unfold limits_in_range. simpl. repeat split; try lia. left. reflexivity. }
  pose proof (parse_args_outcome W limits_in_range) as Hloop.
  specialize (Hloop
    ltac:(unfold limits_in_range; simpl; intros; tauto)
    ltac:(unfold limits_in_range; simpl; intros; tauto)
    ltac:(unfold limits_in_range; simpl; intros; tauto)
    ltac:(unfold limits_in_range; simpl; intros; tauto)
    ltac:(unfold limits_in_range; simpl; intros; tauto)
    ltac:(unfold limits_in_range; simpl; intros; tauto)
    (simplify_args argv) initial_vars Hinit).
  destruct (parse_args initial_vars (simplify_args argv))
    as [evs [st|status]]; simpl in Hloop.
  - destruct Hloop as [Hevs Hst]. subst evs. rewrite bind_nil_returns.
    rewrite check_filename_cases.
    assert (Hpipe : forall st', max_stack st' = max_stack st ->
              gc_min_objects st' = gc_min_objects st ->
              gc_growth_trigger st' = gc_growth_trigger st ->
              In (Call_vm_execute expr ms gmo ggt)
                 (fst (finish (pipeline st'))) ->
              0 <= ms < 2 ^ 32 /\ 1 <= gmo < 2 ^ 32
              /\ (ggt = double_two \/ double_lt_zero ggt = false)).
    { intros st' E1 E2 E3 Hin.
      destruct (pipeline_vm_call W st' expr ms gmo ggt Hin) as [-> [-> ->]].
      rewrite E1, E2, E3. exact Hst. }
    destruct (remaining_args st) as [|f [|g rest]].
    + destruct (filename_is_code st).
      * simpl. intros [H|[H|[]]]; discriminate H.
      * rewrite bind_nil_returns. apply Hpipe; reflexivity.
    + rewrite bind_nil_returns. apply Hpipe; reflexivity.
    + simpl. intros [H|[H|[]]]; discriminate H.
  - simpl. intro Hin. exfalso.
    destruct Hloop as [[_ Hevs] | [_ [_ Hd]]].
    + subst evs. destruct Hin as [H|[]]. discriminate H.
    + exact (diagnostic_is_no_call W evs expr ms gmo ggt Hd Hin).
Qed.

Lemma vm_execute_limits_witness :
  0 <= 7 < 2 ^ 32
  /\ 1 <= 4294967295 < 2 ^ 32
  /\ (2 = @double_two test_double \/ @double_lt_zero test_double 2 = false).
Proof.
  apply (vm_execute_limits test_double
           ["jsonnet"; "-s"; "7"; "--gc-min-objects"; "-1"] "{}" 7 4294967295 2).
  simpl. right. right. right. left. reflexivity.
Defined.

(** ** The help flag, inline code and the input file *)

Lemma parse_args_returns_quietly (W : World) (args : list string)
    (st st' : vars) (evs : list event) :
  parse_args st args = (evs, Returns st') -> evs = [].
Proof.
  intro H.
  pose proof (parse_args_outcome W (fun _ => True)
                ltac:(auto) ltac:(auto) ltac:(auto) ltac:(auto) ltac:(auto)
                ltac:(auto) args st I) as Hloop.
  rewrite H in Hloop. exact (proj1 Hloop).
Qed.

(** X3.  A help flag that the option loop gets to ends the run with the
    usage text on standard output and success status, whatever comes after
    it in the stream, valid or not. *)
Theorem help_ends_the_run (W : World) (argv pre rest : list string)
    (h : string) (evs : list event) (st : vars) :
  is_help h = true ->
  simplify_args argv = pre ++ h :: rest ->
  cursor_passes pre = true ->
  parse_args initial_vars pre = (evs, Returns st) ->
  main argv = ([Stdout usage_text], EXIT_SUCCESS).
Proof.
  intros Hh Hargs Hpass Hpre. unfold main.
  rewrite Hargs, (parse_args_app W (h :: rest) pre _ Hpass), Hpre.
  rewrite (parse_args_returns_quietly W pre _ _ _ Hpre).
  rewrite bind_nil_returns, (parse_args_help W st h rest Hh).
  reflexivity.
Qed.

Lemma help_ends_the_run_witness :
  @main test_double ["jsonnet"; "-es"; "5"; "--help"; "--max-stack"; "zero"]
  = ([Stdout usage_text], EXIT_SUCCESS).
Proof.
  refine (help_ends_the_run test_double
            ["jsonnet"; "-es"; "5"; "--help"; "--max-stack"; "zero"]
            ["-e"; "-s"; "5"] ["--max-stack"; "zero"] "--help" []
            (set_max_stack 5 (set_filename_is_code true initial_vars))
            _ _ _ _); reflexivity.
Defined.

(** X4.  After [-e --] (or [--exec --]) the next argument is the program,
    whatever it looks like: a help flag, an option, a cluster.  It is handed
    to the parser as it is under the name [<cmdline>], and neither the
    standard input nor a file is read. *)
Theorem exec_after_terminator_runs_any_code (W : World) (prog code : string) :
  main [prog; "-e"; "--"; code]
    = finish (run_pipeline
                (set_filename code
                   (push_remaining [code]
                      (set_filename_is_code true initial_vars)))
                "<cmdline>" code)
  /\ main [prog; "--exec"; "--"; code] = main [prog; "-e"; "--"; code]
  /\ exists evs, fst (main [prog; "-e"; "--"; code])
                 = Call_parse "<cmdline>" (c_str code) :: evs.
Proof.
  assert (E : main [prog; "-e"; "--"; code]
    = finish (run_pipeline
                (set_filename code
                   (push_remaining [code]
                      (set_filename_is_code true initial_vars)))
                "<cmdline>" code)).
  { unfold main.
    change (parse_args initial_vars (simplify_args [prog; "-e"; "--"; code]))
      with (@ret W vars (push_remaining [code]
                           (set_filename_is_code true initial_vars))).
    rewrite bind_ret_l.
    change (check_filename
              (push_remaining [code] (set_filename_is_code true initial_vars)))
      with (@ret W vars
              (set_filename code
                 (push_remaining [code]
                    (set_filename_is_code true initial_vars)))).
    rewrite bind_ret_l. unfold pipeline, read_input.
    simpl filename_is_code. cbv iota. rewrite bind_ret_l. reflexivity. }
  split; [exact E|]. split; [reflexivity|].
  rewrite E. unfold run_pipeline, emit.
  rewrite finish_bind_returns. eexists. reflexivity.
Qed.

(** X5.  When the one positional argument is not [-] and the file of that
    name cannot be opened, the run ends with failure status after the
    [perror] message; the parser is not called.  Any token the option loop
    does not know is such a positional argument. *)
Theorem unopenable_file_fails_before_parse (W : World) (argv : list string)
    (evs : list event) (st : vars) (f : string) :
  parse_args initial_vars (simplify_args argv) = (evs, Returns st) ->
  remaining_args st = [f] ->
  filename_is_code st = false ->
  f <> "-" ->
  read_file (c_str f) = None ->
  main argv
  = ([Perror (c_str ("Opening input file: " ++ f)%string)], EXIT_FAILURE).
Proof.
  intros Hparse Hone Hcode Hf Hfile. unfold main. rewrite Hparse.
  rewrite (parse_args_returns_quietly W _ _ _ _ Hparse).
  rewrite bind_nil_returns, check_filename_cases, Hone, bind_nil_returns.
  unfold pipeline, read_input.
  change (filename_is_code (set_filename f st)) with (filename_is_code st).
  change (filename (set_filename f st)) with f.
  rewrite Hcode, (proj2 (String.eqb_neq f "-") Hf), Hfile.
  reflexivity.
Qed.

Lemma unopenable_file_fails_before_parse_witness :
  @main test_double ["jsonnet"; "--debug-ast"; "--version"]
  = ([Perror (c_str "Opening input file: --version")], EXIT_FAILURE).
Proof.
  refine (unopenable_file_fails_before_parse test_double
            ["jsonnet"; "--debug-ast"; "--version"] []
            (push_remaining ["--version"] (set_debug_ast true initial_vars))
            "--version" _ _ _ _ _); try reflexivity.
  discriminate.
Defined.

(** ** The stages of the pipeline *)

Lemma run_pipeline_cases (W : World) (st : vars)
    (display_name input : string) :
  finish (run_pipeline st display_name input)
  = match jsonnet_parse display_name (c_str input) with
    | inl e =>
        ([Call_parse display_name (c_str input);
          Stderr ("STATIC ERROR: " ++ show_StaticError e ++ nl)%string],
         EXIT_FAILURE)
    | inr expr =>
        if debug_ast st then
          ([Call_parse display_name (c_str input); Call_unparse expr;
            Stdout (jsonnet_unparse_jsonnet expr ++ nl)%string],
           EXIT_SUCCESS)
        else
          match jsonnet_static_analysis expr with
          | inl e =>
              ([Call_parse display_name (c_str input);
                Call_static_analysis expr;
                Stderr ("STATIC ERROR: " ++ show_StaticError e ++ nl)%string],
               EXIT_FAILURE)
          | inr expr' =>
              match jsonnet_vm_execute expr' (max_stack st)
                      (gc_min_objects st) (gc_growth_trigger st) with
              | inl e =>
                  ([Call_parse display_name (c_str input);
                    Call_static_analysis expr;
                    Call_vm_execute expr' (max_stack st) (gc_min_objects st)
                                    (gc_growth_trigger st);
                    Stderr ("RUNTIME ERROR: " ++ msg e ++ nl)%string]
                   ++ print_trace (stackTrace e),
                   EXIT_FAILURE)
              | inr text =>
                  ([Call_parse display_name (c_str input);
                    Call_static_analysis expr;
                    Call_vm_execute expr' (max_stack st) (gc_min_objects st)
                                    (gc_growth_trigger st);
                    Stdout (text ++ nl)%string],
                   EXIT_SUCCESS)
              end
          end
    end.
Proof.
  unfold run_pipeline.
  destruct (jsonnet_parse display_name (c_str input)) as [e|expr];
    [reflexivity|].
  destruct (debug_ast st); [reflexivity|].
  destruct (jsonnet_static_analysis expr) as [e|expr']; [reflexivity|].
  destruct (jsonnet_vm_execute expr' (max_stack st) (gc_min_objects st)
                               (gc_growth_trigger st)) as [e|text];
    [|reflexivity].
  rewrite catch_RuntimeError_events. reflexivity.
Qed.

Lemma diagnostic_is_not_call (W : World) (e : event) :
  is_diagnostic e = true -> is_call e = false.
Proof. destruct e; simpl; intro H; (reflexivity || discriminate H). Qed.

Lemma filter_no_call (W : World) (evs : list event) :
  Forall (fun e => is_call e = false) evs -> filter is_call evs = [].
Proof.
  induction 1 as [|e evs He _ IH]; [reflexivity|].
  simpl. rewrite He. exact IH.
Qed.

Lemma print_trace_no_call (W : World) (trace : list (frame LocationRange)) :
  Forall (fun e => is_call e = false) (print_trace trace).
Proof.
  apply Forall_forall. intros e Hin. apply diagnostic_is_not_call.
  exact (trace_loop_no_call W _ _ _ _ Hin).
Qed.

(** A run either calls no collaborator at all, or is the pipeline of lines
    192-202 on some variables and input, after events that are no calls. *)
Lemma main_calls_through_pipeline (W : World) (argv : list string) :
  Forall (fun e => is_call e = false) (fst (main argv))
  \/ exists pre st display_name input,
       Forall (fun e => is_call e = false) pre
       /\ main argv
          = (pre ++ fst (finish (run_pipeline st display_name input)),
             snd (finish (run_pipeline st display_name input))).
Proof.
  assert (Hpipe : forall st,
    Forall (fun e => is_call e = false) (fst (finish (pipeline st)))
    \/ exists pre st' display_name input,
         Forall (fun e => is_call e = false) pre
         /\ finish (pipeline st)
            = (pre ++ fst (finish (run_pipeline st' display_name input)),
               snd (finish (run_pipeline st' display_name input)))).
  { intro st. unfold pipeline, read_input.
    destruct (filename_is_code st).
    { right. exists [], st, "<cmdline>"%string, (filename st).
      split; [constructor|]. rewrite bind_ret_l. simpl fst. simpl snd.
      destruct (finish (run_pipeline st "<cmdline>" (filename st)));
        reflexivity. }
    destruct (String.eqb (filename st) "-").
    { right. exists [Read_stdin], st, "<stdin>"%string, stdin_contents.
      split; [repeat constructor|].
      unfold emit, ret. simpl bind at 2. rewrite finish_bind_returns.
      reflexivity. }
    destruct (read_file (c_str (filename st))) as [contents|].
    - right.
      exists [Read_file (c_str (filename st))], st, (filename st), contents.
      split; [repeat constructor|].
      unfold emit, ret. simpl bind at 2. rewrite finish_bind_returns.
      reflexivity.
    - left. simpl. repeat constructor. }
  unfold main.
  pose proof (parse_args_outcome W (fun _ => True)
                ltac:(auto) ltac:(auto) ltac:(auto) ltac:(auto) ltac:(auto)
                ltac:(auto) (simplify_args argv) initial_vars I) as Hloop.
  destruct (parse_args initial_vars (simplify_args argv))
    as [evs [st|status]]; simpl in Hloop.
  - destruct Hloop as [Hevs _]. subst evs. rewrite bind_nil_returns.
    rewrite check_filename_cases.
    destruct (remaining_args st) as [|f [|g rest]].
    + destruct (filename_is_code st).
      * left. simpl. repeat constructor.
      * rewrite bind_nil_returns. apply Hpipe.
    + rewrite bind_nil_returns. apply Hpipe.
    + left. simpl. repeat constructor.
  - left. simpl. destruct Hloop as [[_ Hevs] | [_ [_ Hd]]].
    + subst evs. repeat constructor.
    + revert Hd. apply Forall_impl. intro e. apply diagnostic_is_not_call.
Qed.

Lemma calls_after_quiet_events (W : World) (pre evs : list event) :
  Forall (fun e => is_call e = false) pre ->
  filter is_call (pre ++ evs) = filter is_call evs.
Proof.
  intro H. rewrite filter_app, (filter_no_call W pre H). reflexivity.
Qed.

Lemma call_after_quiet_events (W : World) (pre evs : list event) (e : event) :
  Forall (fun e => is_call e = false) pre ->
  is_call e = true -> In e (pre ++ evs) -> In e evs.
Proof.
  intros Hpre He Hin. apply in_app_or in Hin. destruct Hin as [Hin|Hin].
  - rewrite Forall_forall in Hpre. rewrite (Hpre e Hin) in He. discriminate He.
  - exact Hin.
Qed.

(** X6.  The stages run in order and the run stops at the first that
    fails, whatever the arguments are.  When the parser was called and
    raises a [StaticError], nothing else is called: the error is written to
    standard error and the status is failure.  When the analysis was called
    and raises a [StaticError], the parser had accepted the input, the
    execution is not called, and the run ends the same way.  When the
    execution was called, the parser and the analysis had both succeeded and
    were the only calls before it; a [RuntimeError] gives its message on
    standard error and failure status, a result is written to standard
    output with a newline and the status is success.  When the expression
    was unparsed, parsing it was the only other call.  A run that calls
    anything calls the parser first. *)
Theorem pipeline_stops_at_first_failure (W : World) (argv : list string) :
  let events := fst (main argv) in
  let status := snd (main argv) in
  let calls := filter is_call events in
  (forall file input e,
     In (Call_parse file input) events ->
     jsonnet_parse file input = inl e ->
     calls = [Call_parse file input]
     /\ status = EXIT_FAILURE
     /\ In (Stderr ("STATIC ERROR: " ++ show_StaticError e ++ nl)%string)
           events)
  /\ (forall expr e,
        In (Call_static_analysis expr) events ->
        jsonnet_static_analysis expr = inl e ->
        exists file input,
          jsonnet_parse file input = inr expr
          /\ calls = [Call_parse file input; Call_static_analysis expr]
          /\ status = EXIT_FAILURE
          /\ In (Stderr ("STATIC ERROR: " ++ show_StaticError e ++ nl)%string)
                events)
  /\ (forall expr' ms gmo ggt,
        In (Call_vm_execute expr' ms gmo ggt) events ->
        exists file input expr,
          jsonnet_parse file input = inr expr
          /\ jsonnet_static_analysis expr = inr expr'
          /\ calls = [Call_parse file input; Call_static_analysis expr;
                      Call_vm_execute expr' ms gmo ggt]
          /\ match jsonnet_vm_execute expr' ms gmo ggt with
             | inl e =>
                 status = EXIT_FAILURE
                 /\ In (Stderr ("RUNTIME ERROR: " ++ msg e ++ nl)%string)
                       events
             | inr text =>
                 status = EXIT_SUCCESS
                 /\ In (Stdout (text ++ nl)%string) events
             end)
  /\ (forall expr,
        In (Call_unparse expr) events ->
        exists file input,
          jsonnet_parse file input = inr expr
          /\ calls = [Call_parse file input; Call_unparse expr]
          /\ status = EXIT_SUCCESS
          /\ In (Stdout (jsonnet_unparse_jsonnet expr ++ nl)%string) events)
  /\ (calls = []
      \/ exists file input more, calls = Call_parse file input :: more).
Proof.
  cbv zeta.
  destruct (main_calls_through_pipeline W argv)
    as [Hnone | [pre [st [display_name [input [Hpre E]]]]]].
  { assert (Hno : forall e, is_call e = true -> ~ In e (fst (main argv))).
    { intros e He Hin. rewrite Forall_forall in Hnone.
      rewrite (Hnone e Hin) in He. discriminate He. }
    split; [intros file i e Hin; exfalso; refine (Hno _ _ Hin); reflexivity|].
    split; [intros expr e Hin; exfalso; refine (Hno _ _ Hin); reflexivity|].
    split; [intros expr' ms gmo ggt Hin; exfalso; refine (Hno _ _ Hin); reflexivity|].
    split; [intros expr Hin; exfalso; refine (Hno _ _ Hin); reflexivity|].
    left. apply filter_no_call. exact Hnone. }
  rewrite E. simpl fst. simpl snd.
  rewrite (calls_after_quiet_events W pre _ Hpre).
  assert (Hin : forall e evs, is_call e = true -> In e (pre ++ evs) ->
                              In e evs).
  { intros e evs. apply call_after_quiet_events. exact Hpre. }
  assert (Hshown : forall e evs, In e evs -> In e (pre ++ evs)).
  { intros e evs H. apply in_or_app. right. exact H. }
  rewrite run_pipeline_cases.
  destruct (jsonnet_parse display_name (c_str input)) as [pe|ast] eqn:Ep.
  { simpl fst. simpl snd. change (filter is_call _)
      with [Call_parse display_name (c_str input)].
    split.
    { intros file i e H Hf. apply Hin in H; [|reflexivity].
      destruct H as [H|[H|[]]]; [|discriminate H].
      injection H as <- <-. rewrite Ep in Hf. injection Hf as <-.
      split; [reflexivity|]. split; [reflexivity|].
      apply Hshown. right. left. reflexivity. }
    split.
    { intros expr e H. apply Hin in H; [|reflexivity].
      destruct H as [H|[H|[]]]; discriminate H. }
    split.
    { intros expr' ms gmo ggt H. apply Hin in H; [|reflexivity].
      destruct H as [H|[H|[]]]; discriminate H. }
    split.
    { intros expr H. apply Hin in H; [|reflexivity].
      destruct H as [H|[H|[]]]; discriminate H. }
    right. do 3 eexists. reflexivity. }
  destruct (debug_ast st).
  { simpl fst. simpl snd. change (filter is_call _)
      with [Call_parse display_name (c_str input); Call_unparse ast].
    split.
    { intros file i e H Hf. apply Hin in H; [|reflexivity].
      destruct H as [H|[H|[H|[]]]]; try discriminate H.
      injection H as <- <-. rewrite Ep in Hf. discriminate Hf. }
    split.
    { intros expr e H. apply Hin in H; [|reflexivity].
      destruct H as [H|[H|[H|[]]]]; discriminate H. }
    split.
    { intros expr' ms gmo ggt H. apply Hin in H; [|reflexivity].
      destruct H as [H|[H|[H|[]]]]; discriminate H. }
    split.
    { intros expr H. apply Hin in H; [|reflexivity].
      destruct H as [H|[H|[H|[]]]]; try discriminate H.
      injection H as <-. exists display_name, (c_str input).
      split; [exact Ep|]. split; [reflexivity|]. split; [reflexivity|].
      apply Hshown. right. right. left. reflexivity. }
    right. do 3 eexists. reflexivity. }
  destruct (jsonnet_static_analysis ast) as [ae|ast'] eqn:Ea.
  { simpl fst. simpl snd. change (filter is_call _)
      with [Call_parse display_name (c_str input); Call_static_analysis ast].
    split.
    { intros file i e H Hf. apply Hin in H; [|reflexivity].
      destruct H as [H|[H|[H|[]]]]; try discriminate H.
      injection H as <- <-. rewrite Ep in Hf. discriminate Hf. }
    split.
    { intros expr e H Hf. apply Hin in H; [|reflexivity].
      destruct H as [H|[H|[H|[]]]]; try discriminate H.
      injection H as <-. rewrite Ea in Hf. injection Hf as <-.
      exists display_name, (c_str input).
      split; [exact Ep|]. split; [reflexivity|]. split; [reflexivity|].
      apply Hshown. right. right. left. reflexivity. }
    split.
    { intros expr' ms gmo ggt H. apply Hin in H; [|reflexivity].
      destruct H as [H|[H|[H|[]]]]; discriminate H. }
    split.
    { intros expr H. apply Hin in H; [|reflexivity].
      destruct H as [H|[H|[H|[]]]]; discriminate H. }
    right. do 3 eexists. reflexivity. }
  destruct (jsonnet_vm_execute ast' (max_stack st) (gc_min_objects st)
                               (gc_growth_trigger st)) as [re|text] eqn:Ev.
  - cbn [fst snd].
    assert (Hcalls : filter is_call
              ([Call_parse display_name (c_str input);
                Call_static_analysis ast;
                Call_vm_execute ast' (max_stack st) (gc_min_objects st)
                                (gc_growth_trigger st);
                Stderr ("RUNTIME ERROR: " ++ msg re ++ nl)%string]
               ++ print_trace (stackTrace re))
            = [Call_parse display_name (c_str input);
               Call_static_analysis ast;
               Call_vm_execute ast' (max_stack st) (gc_min_objects st)
                               (gc_growth_trigger st)]).
    { rewrite filter_app, (filter_no_call W _ (print_trace_no_call W _)).
      reflexivity. }
    rewrite Hcalls.
    assert (Htrace : forall e, is_call e = true ->
                               ~ In e (print_trace (stackTrace re))).
    { intros e He H. pose proof (print_trace_no_call W (stackTrace re)) as Hn.
      rewrite Forall_forall in Hn. rewrite (Hn e H) in He. discriminate He. }
    split.
    { intros file i e H Hf. apply Hin in H; [|reflexivity].
      apply in_app_or in H. destruct H as [H|H];
        [|exfalso; refine (Htrace _ _ H); reflexivity].
      destruct H as [H|[H|[H|[H|[]]]]]; try discriminate H.
      injection H as <- <-. rewrite Ep in Hf. discriminate Hf. }
    split.
    { intros expr e H Hf. apply Hin in H; [|reflexivity].
      apply in_app_or in H. destruct H as [H|H];
        [|exfalso; refine (Htrace _ _ H); reflexivity].
      destruct H as [H|[H|[H|[H|[]]]]]; try discriminate H.
      injection H as <-. rewrite Ea in Hf. discriminate Hf. }
    split.
    { intros expr' ms gmo ggt H. apply Hin in H; [|reflexivity].
      apply in_app_or in H. destruct H as [H|H];
        [|exfalso; refine (Htrace _ _ H); reflexivity].
      destruct H as [H|[H|[H|[H|[]]]]]; try discriminate H.
      injection H as <- <- <- <-. exists display_name, (c_str input), ast.
      split; [exact Ep|]. split; [exact Ea|]. split; [reflexivity|].
      rewrite Ev. split; [reflexivity|].
      apply Hshown. apply in_or_app. left.
      right. right. right. left. reflexivity. }
    split.
    { intros expr H. apply Hin in H; [|reflexivity].
      apply in_app_or in H. destruct H as [H|H];
        [|exfalso; refine (Htrace _ _ H); reflexivity].
      destruct H as [H|[H|[H|[H|[]]]]]; discriminate H. }
    right. do 3 eexists. reflexivity.
  - simpl fst. simpl snd. change (filter is_call _)
      with [Call_parse display_name (c_str input); Call_static_analysis ast;
            Call_vm_execute ast' (max_stack st) (gc_min_objects st)
                            (gc_growth_trigger st)].
    split.
    { intros file i e H Hf. apply Hin in H; [|reflexivity].
      destruct H as [H|[H|[H|[H|[]]]]]; try discriminate H.
      injection H as <- <-. rewrite Ep in Hf. discriminate Hf. }
    split.
    { intros expr e H Hf. apply Hin in H; [|reflexivity].
      destruct H as [H|[H|[H|[H|[]]]]]; try discriminate H.
      injection H as <-. rewrite Ea in Hf. discriminate Hf. }
    split.
    { intros expr' ms gmo ggt H. apply Hin in H; [|reflexivity].
      destruct H as [H|[H|[H|[H|[]]]]]; try discriminate H.
      injection H as <- <- <- <-. exists display_name, (c_str input), ast.
      split; [exact Ep|]. split; [exact Ea|]. split; [reflexivity|].
      rewrite Ev. split; [reflexivity|].
      apply Hshown. right. right. right. left. reflexivity. }
    split.
    { intros expr H. apply Hin in H; [|reflexivity].
      destruct H as [H|[H|[H|[H|[]]]]]; discriminate H. }
    right. do 3 eexists. reflexivity.
Qed.

Lemma pipeline_stops_at_first_failure_witness :
  let parse_fails := @main failing_stages ["jsonnet"; "-e"; "{"] in
  let analysis_fails := @main failing_stages ["jsonnet"; "-e"; "x"] in
  (filter is_call (fst parse_fails)
     = [@Call_parse failing_stages "<cmdline>" "{"]
   /\ snd parse_fails = EXIT_FAILURE
   /\ In (@Stderr failing_stages
            ("STATIC ERROR: " ++ "<cmdline>:1:2: unexpected end of file"
             ++ nl)%string)
         (fst parse_fails))
  /\ exists file input,
       @jsonnet_parse failing_stages file input = inr "x"%string
       /\ filter is_call (fst analysis_fails)
          = [Call_parse file input; @Call_static_analysis failing_stages "x"]
       /\ snd analysis_fails = EXIT_FAILURE
       /\ In (@Stderr failing_stages
                ("STATIC ERROR: " ++ "unknown variable: x" ++ nl)%string)
             (fst analysis_fails).
Proof.
  intros parse_fails analysis_fails. split.
  - exact (proj1 (pipeline_stops_at_first_failure failing_stages
                    ["jsonnet"; "-e"; "{"])
             "<cmdline>"%string "{"%string
             "<cmdline>:1:2: unexpected end of file"%string
             (or_introl eq_refl) eq_refl).
  - exact (proj1 (proj2 (pipeline_stops_at_first_failure failing_stages
                           ["jsonnet"; "-e"; "x"]))
             "x"%string "unknown variable: x"%string
             (or_intror (or_introl eq_refl)) eq_refl).
Defined.

(** ** More on the normalizer *)

Lemma is_cluster_dash (arg : string) :
  is_cluster arg = true -> exists s, arg = String "-" s.
Proof.
  unfold is_cluster. intro H.
  apply andb_prop in H. destruct H as [H _].
  apply andb_prop in H. destruct H as [_ H].
  destruct arg as [|a s]; [discriminate H|].
  unfold char_at in H. simpl in H. apply Ascii.eqb_eq in H. subst a.
  exists s. reflexivity.
Qed.

Lemma dash_each_length (s : string) :
  length (dash_each s) = String.length s.
Proof.
  unfold dash_each. rewrite length_map.
  induction s as [|c s IH]; simpl; [reflexivity | rewrite IH; reflexivity].
Qed.

Lemma dash_each_tokens (s : string) :
  Forall (fun t => String.length t = 2%nat
                   /\ char_at t 0 = "-"%char
                   /\ is_cluster t = false)
         (dash_each s).
Proof.
  unfold dash_each. induction s as [|c s IH]; simpl; constructor.
  - repeat split.
  - exact IH.
Qed.

Lemma dash_each_concat (s : string) :
  String.concat "" (map (fun t => String.substring 1 1 t) (dash_each s)) = s.
Proof.
  unfold dash_each. induction s as [|c s IH]; [reflexivity|].
  simpl list_ascii_of_string. rewrite !map_cons.
  change (String.substring 1 1 (String "-" (String c "")))
    with (String c "").
  destruct s as [|c' s']; [reflexivity|].
  simpl list_ascii_of_string in *. rewrite !map_cons in *.
  change (String.concat "" (String c "" :: ?x :: ?l)) with
    (String c "" ++ "" ++ String.concat "" (x :: l))%string.
  simpl String.concat in IH. simpl. f_equal. exact IH.
Qed.

(** X7.  A cluster is split into as many tokens as it has characters after
    the dash; each token is a dash and one character, so none is a cluster
    again; and the characters of the tokens, put together after a dash, give
    the cluster back. *)
Theorem expand_cluster_shape (arg : string) :
  is_cluster arg = true ->
  length (expand_cluster arg) = (String.length arg - 1)%nat
  /\ Forall (fun t => String.length t = 2%nat
                      /\ char_at t 0 = "-"%char
                      /\ is_cluster t = false)
            (expand_cluster arg)
  /\ String "-" (String.concat ""
                   (map (fun t => String.substring 1 1 t)
                        (expand_cluster arg)))
     = arg.
Proof.
  intro H. destruct (is_cluster_dash arg H) as [s ->].
  rewrite expand_cluster_chars.
  split; [|split].
  - rewrite dash_each_length. simpl. lia.
  - apply dash_each_tokens.
  - rewrite dash_each_concat. reflexivity.
Qed.

Lemma expand_cluster_shape_witness :
  length (expand_cluster "-es-") = (String.length "-es-" - 1)%nat
  /\ Forall (fun t => String.length t = 2%nat
                      /\ char_at t 0 = "-"%char
                      /\ is_cluster t = false)
            (expand_cluster "-es-")
  /\ String "-" (String.concat ""
                   (map (fun t => String.substring 1 1 t)
                        (expand_cluster "-es-")))
     = "-es-".
Proof. apply (expand_cluster_shape "-es-"). reflexivity. Defined.

Lemma settled_dash_each (s : string) (l : list string) :
  settled l = true -> settled (dash_each s ++ l) = true.
Proof.
  intro H. unfold dash_each. induction s as [|c s IH]; [exact H|].
  simpl list_ascii_of_string. rewrite map_cons. simpl app.
  simpl settled. destruct (Ascii.eqb c "-"); [reflexivity | exact IH].
Qed.

Lemma simplify_loop_settled (raw : list string) :
  settled (simplify_loop raw) = true.
Proof.
  induction raw as [|arg rest IH]; [reflexivity|].
  simpl. destruct (String.eqb arg "--") eqn:E.
  - simpl. rewrite E. reflexivity.
  - destruct (is_cluster arg) eqn:Ec.
    + destruct (is_cluster_dash arg Ec) as [s ->].
      rewrite expand_cluster_chars. apply settled_dash_each. exact IH.
    + simpl. rewrite E, Ec. exact IH.
Qed.

Lemma simplify_loop_fixes_settled (raw : list string) :
  settled raw = true -> simplify_loop raw = raw.
Proof.
  induction raw as [|arg rest IH]; [reflexivity|].
  simpl. destruct (String.eqb arg "--"); [reflexivity|].
  intro H. apply andb_prop in H. destruct H as [Hc Hr].
  apply negb_true_iff in Hc. rewrite Hc, (IH Hr). reflexivity.
Qed.

(** X8.  Normalizing twice is normalizing once: in a normalized stream no
    token in front of the first [--] is a cluster, and the normalizer leaves
    such a stream as it is. *)
Theorem simplify_args_idempotent (prog prog' : string) (raw : list string) :
  settled (simplify_args (prog :: raw)) = true
  /\ simplify_args (prog' :: simplify_args (prog :: raw))
     = simplify_args (prog :: raw).
Proof.
  unfold simplify_args. simpl tl. split.
  - apply simplify_loop_settled.
  - apply simplify_loop_fixes_settled. apply simplify_loop_settled.
Qed.

(** ** More on the integer options *)

Lemma is_option_cases (tok : string) :
  is_option tok = true ->
  In tok ["-h"; "--help"; "-s"; "--max-stack"; "--gc-min-objects";
          "--gc-growth-trigger"; "-e"; "--exec"; "--debug-ast"; "--"].
Proof.
  unfold is_option, is_help, takes_value. intro H.
  repeat (apply orb_prop in H; destruct H as [H|H]);
    apply String.eqb_eq in H; subst tok; simpl; tauto.
Qed.

(** X9.  The token after an integer option is its value, whatever it is: a
    help flag, the terminator or any other option in that place is not acted
    on but refused as an invalid integer, and the run ends with failure
    status. *)
Theorem option_after_integer_flag_is_its_value (W : World) (st : vars)
    (flag tok : string) (rest : list string) :
  flag = "-s" \/ flag = "--max-stack" \/ flag = "--gc-min-objects" ->
  is_option tok = true ->
  parse_args st (flag :: tok :: rest)
  = ([Stderr ("ERROR: Invalid integer " ++ dquote ++ tok ++ dquote
              ++ nl ++ nl)%string;
      Stderr usage_text], Exits EXIT_FAILURE).
Proof.
  intros Hflag Htok. apply is_option_cases in Htok.
  assert (Hbad : negb (String.eqb (snd (CLib.strtol (c_str tok))) "")
                 || String.eqb (c_str tok) "" = true
                 /\ c_str tok = tok).
  { simpl in Htok.
    repeat (destruct Htok as [Htok|Htok];
            [subst tok; split; reflexivity|]).
    destruct Htok. }
  destruct Hbad as [Hbad Hc].
  destruct Hflag as [Hflag|[Hflag|Hflag]].
  - rewrite (max_stack_branch W st flag tok rest (or_introl Hflag)).
    cbv zeta. rewrite Hbad, Hc. reflexivity.
  - rewrite (max_stack_branch W st flag tok rest (or_intror Hflag)).
    cbv zeta. rewrite Hbad, Hc. reflexivity.
  - subst flag. rewrite (gc_min_objects_branch W st tok rest).
    cbv zeta. rewrite Hbad, Hc. reflexivity.
Qed.

Lemma option_after_integer_flag_is_its_value_witness :
  @parse_args test_double initial_vars ["--max-stack"; "--help"; "5"]
  = ([Stderr ("ERROR: Invalid integer " ++ dquote ++ "--help" ++ dquote
              ++ nl ++ nl)%string;
      Stderr usage_text], Exits EXIT_FAILURE).
Proof.
  apply (option_after_integer_flag_is_its_value test_double initial_vars
           "--max-stack" "--help" ["5"]).
  - right. left. reflexivity.
  - reflexivity.
Defined.

(** ** The tokens [strtol_check] accepts *)

Lemma isdigit_not_space (c : ascii) :
  CLib.isdigit c = true -> CLib.isspace c = false.
Proof.
  unfold CLib.isdigit, CLib.isspace. cbv zeta. intro H.
  apply andb_prop in H. destruct H as [H1 H2].
  apply Nat.leb_le in H1. apply Nat.leb_le in H2.
  apply orb_false_intro.
  - apply Nat.eqb_neq. lia.
  - apply andb_false_intro2. apply Nat.leb_gt. lia.
Qed.

Lemma isdigit_not_sign (c : ascii) :
  CLib.isdigit c = true ->
  Ascii.eqb c "-" = false /\ Ascii.eqb c "+" = false.
Proof.
  intro H. split; apply Ascii.eqb_neq; intro E; subst c; discriminate H.
Qed.

Lemma skip_space_app (ws r : string) :
  string_forallb CLib.isspace ws = true ->
  CLib.skip_space (ws ++ r) = CLib.skip_space r.
Proof.
  induction ws as [|c ws IH]; intro H; [reflexivity|].
  simpl in H. apply andb_prop in H. destruct H as [Hc Hws].
  simpl. rewrite Hc. exact (IH Hws).
Qed.

Lemma skip_space_split (s : string) :
  exists ws, s = (ws ++ CLib.skip_space s)%string
             /\ string_forallb CLib.isspace ws = true.
Proof.
  induction s as [|c s [ws [E H]]].
  - exists "". split; reflexivity.
  - simpl. destruct (CLib.isspace c) eqn:Ec.
    + exists (String c ws). split.
      * simpl. rewrite <- E. reflexivity.
      * simpl. rewrite Ec, H. reflexivity.
    + exists "". split; reflexivity.
Qed.

Lemma skip_space_stays (c : ascii) (r : string) :
  CLib.isspace c = false -> CLib.skip_space (String c r) = String c r.
Proof. intro H. simpl. rewrite H. reflexivity. Qed.

Lemma digits_of_digits (ds : string) :
  string_forallb CLib.isdigit ds = true ->
  forall acc, snd (CLib.digits acc ds) = "".
Proof.
  induction ds as [|c ds IH]; intros H acc; [reflexivity|].
  simpl in H. apply andb_prop in H. destruct H as [Hc Hds].
  simpl. rewrite Hc. apply IH. exact Hds.
Qed.

Lemma digits_to_the_end (s : string) :
  forall acc, snd (CLib.digits acc s) = "" ->
              string_forallb CLib.isdigit s = true.
Proof.
  induction s as [|c s IH]; intros acc H; [reflexivity|].
  simpl in *. destruct (CLib.isdigit c); [|discriminate H].
  exact (IH _ H).
Qed.

(** Where [strtol] leaves [ep]: after the digits of the body, which is what
    follows the white space and the sign, or at the start when the body
    does not begin with a digit. *)
Lemma strtol_rest (nptr : string) :
  snd (CLib.strtol nptr)
  = let body :=
      match CLib.skip_space nptr with
      | String c s' =>
          if Ascii.eqb c "-" then s'
          else if Ascii.eqb c "+" then s'
          else String c s'
      | EmptyString => EmptyString
      end in
    if CLib.isdigit (deref body) then snd (CLib.digits 0 body) else nptr.
Proof.
  unfold CLib.strtol. cbv zeta.
  destruct (CLib.skip_space nptr) as [|c s'].
  - reflexivity.
  - destruct (Ascii.eqb c "-"); [|destruct (Ascii.eqb c "+")];
      match goal with
      | |- context [CLib.isdigit (deref ?b)] =>
          destruct (CLib.isdigit (deref b)); [|reflexivity];
          destruct (CLib.digits 0 b); reflexivity
      end.
Qed.

Lemma append_empty (a b : string) : (a ++ b)%string = "" -> a = "" /\ b = "".
Proof. destruct a; [simpl; tauto | discriminate]. Qed.

(** X10.  [strtol_check] accepts a token exactly when the token, read as a
    C string, is white space, then at most one sign, then one digit or more,
    and nothing after the digits. *)
Theorem strtol_check_accepts_integer_tokens (W : World) (str : string) :
  strtol_check str = ([], Returns (fst (CLib.strtol (c_str str))))
  <-> integer_token (c_str str).
Proof.
  rewrite strtol_check_cases. cbv zeta.
  set (arg := c_str str). rewrite strtol_rest. cbv zeta.
  split.
  - intro H.
    destruct (String.eqb_spec arg "") as [Ea|Ea];
      [rewrite orb_true_r in H; discriminate H|].
    rewrite orb_false_r in H.
    destruct (skip_space_split arg) as [ws [Ews Hws]].
    destruct (CLib.skip_space arg) as [|c s'] eqn:Es.
    + change (CLib.isdigit (deref "")) with false in H. cbv iota in H.
      rewrite (proj2 (String.eqb_neq arg "") Ea) in H. discriminate H.
    + assert (Hbody : forall sign body,
                (sign = "" \/ sign = "+" \/ sign = "-") ->
                String c s' = (sign ++ body)%string ->
                (if negb (String.eqb
                            (if CLib.isdigit (deref body)
                             then snd (CLib.digits 0 body) else arg) "")
                 then ([Stderr ("ERROR: Invalid integer " ++ dquote ++ arg
                                ++ dquote ++ nl ++ nl)%string;
                        Stderr usage_text], @Exits Z EXIT_FAILURE)
                 else ([], Returns (fst (CLib.strtol arg))))
                = ([], Returns (fst (CLib.strtol arg))) ->
                integer_token arg).
      { intros sign body Hsign Hsplit Hacc.
        destruct (CLib.isdigit (deref body)) eqn:Hd.
        - destruct (String.eqb_spec (snd (CLib.digits 0 body)) "") as [Er|Er];
            [|discriminate Hacc].
          exists ws, sign, body. split; [|split; [|split; [|split]]].
          + rewrite Ews, Hsplit. reflexivity.
          + exact Hws.
          + exact Hsign.
          + intro Eb. subst body. discriminate Hd.
          + exact (digits_to_the_end body 0 Er).
        - rewrite (proj2 (String.eqb_neq arg "") Ea) in Hacc.
          discriminate Hacc. }
      destruct (Ascii.eqb_spec c "-") as [Em|Em].
      { subst c. apply (Hbody "-" s'); [tauto | reflexivity | exact H]. }
      destruct (Ascii.eqb_spec c "+") as [Ep|Ep].
      { subst c. apply (Hbody "+" s'); [tauto | reflexivity | exact H]. }
      apply (Hbody "" (String c s')); [tauto | reflexivity | exact H].
  - intros [ws [sign [ds [Earg [Hws [Hsign [Hne Hds]]]]]]].
    assert (Harg : String.eqb arg "" = false).
    { apply String.eqb_neq. intro E. rewrite Earg in E.
      apply append_empty in E. destruct E as [_ E].
      apply append_empty in E. destruct E as [_ E]. exact (Hne E). }
    rewrite Harg, orb_false_r.
    destruct ds as [|d ds']; [contradiction Hne; reflexivity|].
    pose proof Hds as Hds'. simpl in Hds'. apply andb_prop in Hds'.
    destruct Hds' as [Hd _].
    destruct (isdigit_not_sign d Hd) as [Hdm Hdp].
    rewrite Earg, (skip_space_app ws _ Hws).
    destruct Hsign as [Hs|[Hs|Hs]]; subst sign; simpl append.
    + rewrite (skip_space_stays d ds' (isdigit_not_space d Hd)).
      rewrite Hdm, Hdp. simpl deref. rewrite Hd.
      rewrite (digits_of_digits _ Hds). reflexivity.
    + rewrite (skip_space_stays "+" _ eq_refl).
      change (Ascii.eqb "+" "-") with false.
      change (Ascii.eqb "+" "+") with true. cbv iota.
      simpl deref. rewrite Hd.
      rewrite (digits_of_digits _ Hds). reflexivity.
    + rewrite (skip_space_stays "-" _ eq_refl).
      change (Ascii.eqb "-" "-") with true. cbv iota.
      simpl deref. rewrite Hd.
      rewrite (digits_of_digits _ Hds). reflexivity.
Qed.

(** ** Decimal numerals *)

Lemma digits_string_of_uint (d : Decimal.uint) :
  forall acc,
    CLib.digits acc (NilEmpty.string_of_uint d) = (uint_digits d acc, "").
Proof.
  induction d; intro acc; simpl; try apply IHd; reflexivity.
Qed.

Lemma uint_digits_acc (d : Decimal.uint) :
  forall p, Z.pos (Pos.of_uint_acc d p) = uint_digits d (Z.pos p).
Proof.
  induction d; intro p; cbn [Pos.of_uint_acc uint_digits];
    [reflexivity | rewrite IHd; f_equal; lia ..].
Qed.

Lemma uint_digits_of_uint (d : Decimal.uint) :
  Z.of_N (Pos.of_uint d) = uint_digits d 0.
Proof.
  induction d; cbn [Pos.of_uint uint_digits Z.of_N];
    [reflexivity | exact IHd | rewrite uint_digits_acc; reflexivity ..].
Qed.

Lemma uint_digits_to_uint (p : positive) :
  uint_digits (Pos.to_uint p) 0 = Z.pos p.
Proof.
  rewrite <- uint_digits_of_uint, DecimalPos.Unsigned.of_to. reflexivity.
Qed.

Lemma string_of_uint_starts_with_digit (d : Decimal.uint) :
  d <> Decimal.Nil ->
  exists c r, NilEmpty.string_of_uint d = String c r
              /\ CLib.isdigit c = true.
Proof.
  destruct d; intro H; [contradiction H; reflexivity|..];
    simpl; do 2 eexists; split; reflexivity.
Qed.

Lemma string_of_uint_nul_free (d : Decimal.uint) :
  c_str (NilEmpty.string_of_uint d) = NilEmpty.string_of_uint d.
Proof. induction d; simpl; try rewrite IHd; reflexivity. Qed.

(** [strtol] on the decimal numeral of a positive number, with or without
    a minus sign in front. *)
Lemma strtol_numeral (p : positive) (neg : bool) :
  CLib.strtol ((if neg then "-" else "")
               ++ NilEmpty.string_of_uint (Pos.to_uint p))%string
  = (CLib.clamp_long (if neg then Z.neg p else Z.pos p), "").
Proof.
  destruct (string_of_uint_starts_with_digit (Pos.to_uint p)
              (DecimalPos.Unsigned.to_uint_nonnil p)) as [c [r [E Hc]]].
  pose proof (digits_string_of_uint (Pos.to_uint p) 0) as Hd.
  rewrite uint_digits_to_uint in Hd.
  destruct (isdigit_not_sign c Hc) as [Hm Hp].
  unfold CLib.strtol. destruct neg; simpl append.
  - rewrite (skip_space_stays "-" _ eq_refl).
    change (Ascii.eqb "-" "-") with true. cbv iota.
    rewrite E. simpl deref. rewrite Hc, <- E, Hd. reflexivity.
  - rewrite E, (skip_space_stays c r (isdigit_not_space c Hc)), Hm, Hp.
    simpl deref. rewrite Hc, <- E, Hd. reflexivity.
Qed.

Lemma strtol_string_of_Z (z : Z) :
  CLib.strtol (string_of_Z z) = (CLib.clamp_long z, "")
  /\ c_str (string_of_Z z) = string_of_Z z
  /\ string_of_Z z <> "".
Proof.
  unfold string_of_Z. destruct z as [|p|p].
  - repeat split. discriminate.
  - simpl Z.to_int. unfold NilZero.string_of_int, NilZero.string_of_uint.
    pose proof (DecimalPos.Unsigned.to_uint_nonnil p) as Hn.
    pose proof (strtol_numeral p false) as Hs. simpl append in Hs.
    pose proof (string_of_uint_nul_free (Pos.to_uint p)) as Hc.
    destruct (string_of_uint_starts_with_digit (Pos.to_uint p) Hn)
      as [c [r [E _]]].
    destruct (Pos.to_uint p); [contradiction Hn; reflexivity|..];
      (split; [exact Hs|]; split; [exact Hc|]; rewrite E; discriminate).
  - simpl Z.to_int. unfold NilZero.string_of_int, NilZero.string_of_uint.
    pose proof (DecimalPos.Unsigned.to_uint_nonnil p) as Hn.
    pose proof (strtol_numeral p true) as Hs. simpl append in Hs.
    pose proof (string_of_uint_nul_free (Pos.to_uint p)) as Hc.
    destruct (Pos.to_uint p); [contradiction Hn; reflexivity|..];
      (split; [exact Hs|]; split; [|discriminate];
       simpl c_str; change (Ascii.eqb "-" NUL) with false; cbv iota;
       f_equal; exact Hc).
Qed.

(** X11.  The decimal numeral of any integer is accepted by
    [strtol_check]: with the integer itself as its value when that is in the
    range of [long], with [LONG_MAX] or [LONG_MIN] when it is beyond. *)
Theorem strtol_check_decimal_numeral (W : World) (z : Z) :
  strtol_check (string_of_Z z) = ([], Returns (CLib.clamp_long z))
  /\ (CLib.LONG_MIN <= z <= CLib.LONG_MAX -> CLib.clamp_long z = z)
  /\ (CLib.LONG_MAX < z -> CLib.clamp_long z = CLib.LONG_MAX)
  /\ (z < CLib.LONG_MIN -> CLib.clamp_long z = CLib.LONG_MIN).
Proof.
  destruct (strtol_string_of_Z z) as [Hs [Hc Hne]].
  split.
  - rewrite strtol_check_cases. cbv zeta. rewrite Hc, Hs. simpl fst. simpl snd.
    rewrite (proj2 (String.eqb_neq (string_of_Z z) "") Hne). reflexivity.
  - unfold CLib.clamp_long, CLib.LONG_MIN, CLib.LONG_MAX.
    repeat split; intro H;
      destruct (Z.ltb_spec z (- 2 ^ 63));
      destruct (Z.ltb_spec (2 ^ 63 - 1) z); lia.
Qed.

Lemma strtol_check_decimal_numeral_witness :
  CLib.clamp_long 500 = 500.
Proof.
  apply (proj1 (proj2 (strtol_check_decimal_numeral test_double 500))).
  unfold CLib.LONG_MIN, CLib.LONG_MAX. lia.
Defined.

Lemma string_of_Z_starts_with_digit (n : Z) :
  1 <= n ->
  exists c r, string_of_Z n = String c r /\ CLib.isdigit c = true.
Proof.
  intro H. destruct n as [|p|p]; try lia.
  unfold string_of_Z. simpl Z.to_int.
  unfold NilZero.string_of_int, NilZero.string_of_uint.
  pose proof (DecimalPos.Unsigned.to_uint_nonnil p) as Hn.
  destruct (string_of_uint_starts_with_digit (Pos.to_uint p) Hn)
    as [c [r [E D]]].
  exists c, r. split; [|exact D].
  destruct (Pos.to_uint p); [contradiction Hn; reflexivity|..]; exact E.
Qed.

(** The normalizer leaves the numeral of a positive number as it is. *)
Lemma simplify_loop_numeral (n : Z) (rest : list string) :
  1 <= n ->
  simplify_loop (string_of_Z n :: rest) = string_of_Z n :: simplify_loop rest.
Proof.
  intro H. destruct (string_of_Z_starts_with_digit n H) as [c [r [E D]]].
  rewrite E. destruct (isdigit_not_sign c D) as [Hdash _].
  cbn [simplify_loop]. unfold is_cluster, char_at.
  cbn [String.eqb String.get]. rewrite Hdash.
  rewrite andb_false_r. reflexivity.
Qed.

(** X12.  A limit from 1 to 4294967295 written in decimal after
    [-s] / [--max-stack] or after [--gc-min-objects] is the value the
    variable [max_stack], respectively [gc_min_objects], gets, the other
    variables staying as they were, and the option loop goes on with the
    token after it.  It is the value the execution is called with: with
    inline code that the parser and the analysis accept, [-s n] gives a call
    with stack limit [n] and the default 1000 objects, and
    [--gc-min-objects n] one with the default stack limit 500 and [n]
    objects. *)
Theorem decimal_limits_are_stored (W : World) (st : vars) (n : Z)
    (rest : list string) :
  1 <= n < 2 ^ 32 ->
  parse_args st ("-s" :: string_of_Z n :: rest)
    = parse_args {| filename := filename st;
                    gc_growth_trigger := gc_growth_trigger st;
                    max_stack := n;
                    gc_min_objects := gc_min_objects st;
                    filename_is_code := filename_is_code st;
                    debug_ast := debug_ast st;
                    remaining_args := remaining_args st |} rest
  /\ parse_args st ("--max-stack" :: string_of_Z n :: rest)
     = parse_args {| filename := filename st;
                     gc_growth_trigger := gc_growth_trigger st;
                     max_stack := n;
                     gc_min_objects := gc_min_objects st;
                     filename_is_code := filename_is_code st;
                     debug_ast := debug_ast st;
                     remaining_args := remaining_args st |} rest
  /\ parse_args st ("--gc-min-objects" :: string_of_Z n :: rest)
     = parse_args {| filename := filename st;
                     gc_growth_trigger := gc_growth_trigger st;
                     max_stack := max_stack st;
                     gc_min_objects := n;
                     filename_is_code := filename_is_code st;
                     debug_ast := debug_ast st;
                     remaining_args := remaining_args st |} rest
  /\ (forall (prog code : string) (expr expr' : AST),
        jsonnet_parse "<cmdline>" (c_str code) = inr expr ->
        jsonnet_static_analysis expr = inr expr' ->
        In (Call_vm_execute expr' n 1000 double_two)
           (fst (main [prog; "-s"; string_of_Z n; "-e"; "--"; code]))
        /\ In (Call_vm_execute expr' 500 n double_two)
              (fst (main [prog; "--gc-min-objects"; string_of_Z n; "-e";
                          "--"; code]))).
Proof.
  intro Hn.
  destruct (strtol_string_of_Z n) as [Hs [Hc Hne]].
  assert (Hclamp : CLib.clamp_long n = n).
  { unfold CLib.clamp_long, CLib.LONG_MIN, CLib.LONG_MAX.
    destruct (Z.ltb_spec n (- 2 ^ 63)); destruct (Z.ltb_spec (2 ^ 63 - 1) n);
      lia. }
  assert (Hok : negb (String.eqb (snd (CLib.strtol (c_str (string_of_Z n))))
                                 "")
                || String.eqb (c_str (string_of_Z n)) "" = false).
  { rewrite Hc, Hs. simpl snd.
    rewrite (proj2 (String.eqb_neq (string_of_Z n) "") Hne). reflexivity. }
  assert (Hv : fst (CLib.strtol (c_str (string_of_Z n))) = n).
  { rewrite Hc, Hs. exact Hclamp. }
  assert (Hmod : n mod 2 ^ 32 = n) by (apply Z.mod_small; lia).
  assert (Hs1 : forall st0 flag rest0, flag = "-s" \/ flag = "--max-stack" ->
            parse_args st0 (flag :: string_of_Z n :: rest0)
            = parse_args (set_max_stack n st0) rest0).
  { intros st0 flag rest0 Hflag.
    rewrite (max_stack_branch W st0 flag _ rest0 Hflag).
    cbv zeta. rewrite Hok, Hv, Hmod.
    rewrite (proj2 (Z.ltb_ge n 1)) by lia. reflexivity. }
  assert (Hs2 : forall st0 rest0,
            parse_args st0 ("--gc-min-objects" :: string_of_Z n :: rest0)
            = parse_args (set_gc_min_objects n st0) rest0).
  { intros st0 rest0. rewrite (gc_min_objects_branch W st0 _ rest0).
    cbv zeta. rewrite Hok, Hv, Hmod.
    rewrite (proj2 (Z.eqb_neq n 0)) by lia. reflexivity. }
  split; [exact (Hs1 st "-s"%string rest (or_introl eq_refl))|].
  split; [exact (Hs1 st "--max-stack"%string rest (or_intror eq_refl))|].
  split; [exact (Hs2 st rest)|].
  intros prog code expr expr' Hp Ha.
  assert (Hrun : forall st0,
            filename_is_code st0 = true -> debug_ast st0 = false ->
            filename st0 = code ->
            In (Call_vm_execute expr' (max_stack st0) (gc_min_objects st0)
                                (gc_growth_trigger st0))
               (fst (finish (pipeline st0)))).
  { intros st0 Hcode Hdebug Hfile. unfold pipeline, read_input.
    rewrite Hcode, bind_ret_l. cbn [fst snd].
    rewrite run_pipeline_cases, Hfile, Hp, Hdebug, Ha.
    destruct (jsonnet_vm_execute expr' (max_stack st0) (gc_min_objects st0)
                                 (gc_growth_trigger st0));
      cbn [fst]; right; right; left; reflexivity. }
  split.
  - unfold main, simplify_args. cbn [tl].
    change (simplify_loop ("-s" :: string_of_Z n :: ["-e"; "--"; code]))
      with ("-s" :: simplify_loop (string_of_Z n :: ["-e"; "--"; code]))%string.
    rewrite simplify_loop_numeral by lia.
    change (simplify_loop ["-e"; "--"; code]) with ["-e"; "--"; code]%string.
    rewrite (Hs1 initial_vars "-s"%string _ (or_introl eq_refl)).
    change (parse_args (set_max_stack n initial_vars) ["-e"; "--"; code])
      with (@ret W vars
              (push_remaining [code]
                 (set_filename_is_code true (set_max_stack n initial_vars)))).
    rewrite bind_ret_l, check_filename_cases. cbn [remaining_args
      push_remaining set_filename_is_code set_max_stack initial_vars app].
    rewrite bind_nil_returns.
    exact (Hrun (set_filename code
                   (push_remaining [code]
                      (set_filename_is_code true
                         (set_max_stack n initial_vars))))
                eq_refl eq_refl eq_refl).
  - unfold main, simplify_args. cbn [tl].
    change (simplify_loop
              ("--gc-min-objects" :: string_of_Z n :: ["-e"; "--"; code]))
      with ("--gc-min-objects"
            :: simplify_loop (string_of_Z n :: ["-e"; "--"; code]))%string.
    rewrite simplify_loop_numeral by lia.
    change (simplify_loop ["-e"; "--"; code]) with ["-e"; "--"; code]%string.
    rewrite (Hs2 initial_vars).
    change (parse_args (set_gc_min_objects n initial_vars)
                       ["-e"; "--"; code])
      with (@ret W vars
              (push_remaining [code]
                 (set_filename_is_code true
                    (set_gc_min_objects n initial_vars)))).
    rewrite bind_ret_l, check_filename_cases. cbn [remaining_args
      push_remaining set_filename_is_code set_gc_min_objects initial_vars app].
    rewrite bind_nil_returns.
    exact (Hrun (set_filename code
                   (push_remaining [code]
                      (set_filename_is_code true
                         (set_gc_min_objects n initial_vars))))
                eq_refl eq_refl eq_refl).
Qed.

Lemma decimal_limits_are_stored_witness :
  @parse_args test_double initial_vars ["-s"; "4294967295"]
  = ([], Returns (@mk_vars test_double "-" 2 4294967295 1000 false false []))
  /\ @parse_args test_double initial_vars ["--gc-min-objects"; "4294967295"]
     = ([], Returns (@mk_vars test_double "-" 2 500 4294967295 false false
                       []))
  /\ In (@Call_vm_execute test_double "{}" 4294967295 1000 2)
        (fst (@main test_double
                ["jsonnet"; "-s"; "4294967295"; "-e"; "--"; "{}"]))
  /\ In (@Call_vm_execute test_double "{}" 500 4294967295 2)
        (fst (@main test_double
                ["jsonnet"; "--gc-min-objects"; "4294967295"; "-e"; "--";
                 "{}"])).
Proof.
  pose proof (decimal_limits_are_stored test_double initial_vars 4294967295 []
                ltac:(lia)) as [H1 [_ [H3 H4]]].
  split; [exact H1|]. split; [exact H3|].
  exact (H4 "jsonnet"%string "{}"%string "{}"%string "{}"%string
            eq_refl eq_refl).
Defined.

(** ** How options combine *)

Lemma is_option_false (t : string) :
  is_option t = false ->
  String.eqb t "-h" || String.eqb t "--help" = false
  /\ String.eqb t "-s" || String.eqb t "--max-stack" = false
  /\ String.eqb t "--gc-min-objects" = false
  /\ String.eqb t "--gc-growth-trigger" = false
  /\ String.eqb t "-e" || String.eqb t "--exec" = false
  /\ String.eqb t "--debug-ast" = false
  /\ String.eqb t "--" = false.
Proof.
  unfold is_option, is_help, takes_value. intro H.
  repeat match goal with
         | E : _ || _ = false |- _ => apply orb_false_elim in E; destruct E
         end.
  repeat split;
    repeat match goal with E : _ = false |- _ => rewrite E; clear E end;
    reflexivity.
Qed.

(** X13.  A stream in which no token is one the option loop tests for is
    taken, token by token and in order, as positional arguments: the loop
    writes nothing, never ends the process and changes no other variable,
    and [remaining_args] ends up as what it held followed by the whole
    stream.  So an option the loop does not know is never reported as
    such. *)
Theorem unknown_tokens_become_positional (W : World) (args : list string) :
  Forall (fun t => is_option t = false) args ->
  forall st,
    parse_args st args
    = ([], Returns {| filename := filename st;
                      gc_growth_trigger := gc_growth_trigger st;
                      max_stack := max_stack st;
                      gc_min_objects := gc_min_objects st;
                      filename_is_code := filename_is_code st;
                      debug_ast := debug_ast st;
                      remaining_args := remaining_args st ++ args |}).
Proof.
  induction 1 as [|t rest Ht Hrest IH]; intro st.
  - simpl. rewrite app_nil_r. destruct st; reflexivity.
  - rewrite (parse_args_cons W st t).
    destruct (is_option_false t Ht) as [E1 [E2 [E3 [E4 [E5 [E6 E7]]]]]].
    rewrite E1, E2, E3, E4, E5, E6, E7, IH.
    cbn [push_remaining filename gc_growth_trigger max_stack gc_min_objects
         filename_is_code debug_ast remaining_args].
    rewrite <- app_assoc. reflexivity.
Qed.

Lemma unknown_tokens_become_positional_witness :
  @parse_args test_double initial_vars ["--version"; "-x"; "a.jsonnet"]
  = ([], Returns (@mk_vars test_double "-" 2 500 1000 false false
                    ["--version"; "-x"; "a.jsonnet"])).
Proof.
  apply (unknown_tokens_become_positional test_double
           ["--version"; "-x"; "a.jsonnet"]).
  repeat constructor.
Defined.

(** X14.  Of two values given for the same limit the second is the one
    kept, and giving [-e] or [--debug-ast] twice, or the two in either
    order, is the same as giving each once. *)
Theorem repeated_options (W : World) (st : vars) (n m : Z)
    (rest : list string) :
  1 <= n < 2 ^ 32 -> 1 <= m < 2 ^ 32 ->
  parse_args st ("-s" :: string_of_Z n :: "-s" :: string_of_Z m :: rest)
    = parse_args st ("-s" :: string_of_Z m :: rest)
  /\ parse_args st ("--gc-min-objects" :: string_of_Z n
                    :: "--gc-min-objects" :: string_of_Z m :: rest)
     = parse_args st ("--gc-min-objects" :: string_of_Z m :: rest)
  /\ parse_args st ("-e" :: "-e" :: rest) = parse_args st ("-e" :: rest)
  /\ parse_args st ("--debug-ast" :: "--debug-ast" :: rest)
     = parse_args st ("--debug-ast" :: rest)
  /\ parse_args st ("-e" :: "--debug-ast" :: rest)
     = parse_args st ("--debug-ast" :: "-e" :: rest).
Proof.
  intros Hn Hm.
  assert (Hs : forall k st0 rest0, 1 <= k < 2 ^ 32 ->
            parse_args st0 ("-s" :: string_of_Z k :: rest0)
            = parse_args (set_max_stack k st0) rest0).
  { intros k st0 rest0 Hk.
    destruct (strtol_string_of_Z k) as [Hs [Hc Hne]].
    rewrite (max_stack_branch W st0 "-s" _ rest0 (or_introl eq_refl)).
    cbv zeta. rewrite Hc, Hs. simpl fst. simpl snd.
    rewrite (proj2 (String.eqb_neq (string_of_Z k) "") Hne).
    assert (Hclamp : CLib.clamp_long k = k).
    { unfold CLib.clamp_long, CLib.LONG_MIN, CLib.LONG_MAX.
      destruct (Z.ltb_spec k (- 2 ^ 63));
        destruct (Z.ltb_spec (2 ^ 63 - 1) k); lia. }
    rewrite Hclamp, (Z.mod_small k (2 ^ 32)) by lia.
    rewrite (proj2 (Z.ltb_ge k 1)) by lia. reflexivity. }
  assert (Hg : forall k st0 rest0, 1 <= k < 2 ^ 32 ->
            parse_args st0 ("--gc-min-objects" :: string_of_Z k :: rest0)
            = parse_args (set_gc_min_objects k st0) rest0).
  { intros k st0 rest0 Hk.
    destruct (strtol_string_of_Z k) as [Hs' [Hc Hne]].
    rewrite (gc_min_objects_branch W st0 _ rest0).
    cbv zeta. rewrite Hc, Hs'. simpl fst. simpl snd.
    rewrite (proj2 (String.eqb_neq (string_of_Z k) "") Hne).
    assert (Hclamp : CLib.clamp_long k = k).
    { unfold CLib.clamp_long, CLib.LONG_MIN, CLib.LONG_MAX.
      destruct (Z.ltb_spec k (- 2 ^ 63));
        destruct (Z.ltb_spec (2 ^ 63 - 1) k); lia. }
    rewrite Hclamp, (Z.mod_small k (2 ^ 32)) by lia.
    rewrite (proj2 (Z.eqb_neq k 0)) by lia. reflexivity. }
  split; [|split; [|repeat split; reflexivity]].
  - rewrite (Hs n st _ Hn), (Hs m _ rest Hm), (Hs m st rest Hm). reflexivity.
  - rewrite (Hg n st _ Hn), (Hg m _ rest Hm), (Hg m st rest Hm). reflexivity.
Qed.

Lemma repeated_options_witness :
  @parse_args test_double initial_vars
     ["-s"; string_of_Z 7; "-s"; string_of_Z 9]
  = @parse_args test_double initial_vars ["-s"; string_of_Z 9].
Proof.
  apply (proj1 (repeated_options test_double initial_vars 7 9 []
                  ltac:(lia) ltac:(lia))).
Defined.
